(** * Dynamic exclusivity tracking: the access set and the task push/pop protocol

    A shallow embedding of [stdlib/public/runtime/Exclusivity.cpp]:
    the [Access] record with its tagged next pointer, the intrusive
    singly-linked [AccessSet], the entry points [swift_beginAccess] and
    [swift_endAccess], and the task swizzling done by
    [swift_task_enterThreadLocalContext] / [swift_task_exitThreadLocalContext].

    Pointers and [uintptr_t] words are integers in [0, 2^64); the null
    pointer is [0].  Scratch buffers live in a finite map from addresses
    to [Access] records, so that aliasing between the thread's list, the
    task's saved span and the compiler's buffers is explicit. *)

From Stdlib Require Import ZArith Lia Bool List.
From stdpp Require Import base tactics option list gmap strings.

Local Open Scope Z_scope.

(* ===================================================================== *)
(** ** Outcomes of a runtime call *)
(* ===================================================================== *)

(** The ways a call can fail to return normally. *)
Inductive error : Type :=
  | Conflict          (* reportExclusivityConflict, then fatalError *)
  | AssertionFailed   (* an assert() of an asserts build fired *)
  | Unreachable       (* swift_unreachable was reached *)
  | BadPointer        (* a null or unmapped pointer was dereferenced *)
  | OutOfFuel.        (* the loop bound of the model was exhausted *)

Inductive result (A : Type) : Type :=
  | Ok (a : A)
  | Err (e : error).

Arguments Ok {A} a.
Arguments Err {A} e.

Definition bind {A B : Type} (r : result A) (k : A -> result B) : result B :=
  match r with
  | Ok a => k a
  | Err e => Err e
  end.

Notation "'do' x <- r ; k" := (bind r (fun x => k))
  (at level 10, x name, r at level 100, k at level 200).
Notation "r ;; k" := (bind r (fun _ => k))
  (at level 100, k at level 200, right associativity).

(* ===================================================================== *)
(** ** Build configuration and the flags ABI *)
(* ===================================================================== *)

(** Width of [uintptr_t] and of a pointer. *)
Definition uintptr_bits : Z := 64.
Definition uintptr_modulus : Z := 2 ^ uintptr_bits.

(** [enum class ExclusivityFlags : uintptr_t] and its two helpers
    [getAccessAction(flags)] and [isTracking(flags)] come from the ABI
    headers, not from Exclusivity.cpp, and [NDEBUG] is a build option;
    the runtime is therefore modelled over them. *)
Class ExclusivityABI : Type := {
  NDEBUG : bool;                 (* true: asserts are compiled out *)
  ActionMask : Z;                (* ExclusivityFlags::ActionMask *)
  Read : Z;                      (* ExclusivityFlags::Read *)
  Modify : Z;                    (* ExclusivityFlags::Modify *)
  getAccessAction : Z -> Z;      (* flags -> action *)
  isTracking : Z -> bool         (* flags -> tracked? *)
}.

(** What the runtime relies on about those headers: an action fits in
    the action bits, and those bits encode exactly [Read] or [Modify]
    (an action is one of the two). *)
Class ExclusivityABILaws (abi : ExclusivityABI) : Prop := {
  action_in_mask : forall flags,
    Z.land (getAccessAction flags) ActionMask = getAccessAction flags;
  action_cases : forall w,
    Z.land w ActionMask = Read \/ Z.land w ActionMask = Modify;
  Read_neq_Modify : Read <> Modify
}.

(* ===================================================================== *)
(** ** struct Access *)
(* ===================================================================== *)

Record Access : Type := mkAccess {
  Pointer : Z;
  PC : Z;
  NextAndAction : Z
}.

Section Runtime.
Context {abi : ExclusivityABI}.

(** [NextMask = ~ActionMask], as a [uintptr_t]. *)
Definition NextMask : Z := Z.lnot ActionMask mod uintptr_modulus.

Definition Access_getNext (a : Access) : Z :=
  Z.land (NextAndAction a) NextMask.

Definition Access_setNext (a : Access) (next : Z) : Access :=
  {| Pointer := Pointer a;
     PC := PC a;
     NextAndAction := Z.lor next (Z.land (NextAndAction a) ActionMask) |}.

Definition Access_getAccessAction (a : Access) : Z :=
  Z.land (NextAndAction a) ActionMask.

Definition Access_initialize (pc pointer next action : Z) : Access :=
  {| Pointer := pointer;
     PC := pc;
     NextAndAction := Z.lor next action |}.

(** *** Memory holding the scratch buffers *)

(** [load m p] is [*p]; null and unmapped addresses cannot be read. *)
Definition load (m : gmap Z Access) (p : Z) : result Access :=
  if p =? 0 then Err BadPointer
  else match m !! p with
       | Some a => Ok a
       | None => Err BadPointer
       end.

(** [store m p a] is [*p = a] on a mapped buffer. *)
Definition store (m : gmap Z Access) (p : Z) (a : Access)
  : result (gmap Z Access) :=
  do _ <- load m p; Ok (<[p := a]> m).

(** [assert(c)]: checked unless the build defines [NDEBUG]. *)
Definition assert (c : bool) : result unit :=
  if NDEBUG || c then Ok tt else Err AssertionFailed.

(* ===================================================================== *)
(** ** class AccessSet *)
(* ===================================================================== *)

(** The conflict scan of [AccessSet::insert]:
    [for (cur = Head; cur != nullptr; cur = cur->getNext())]. *)
Fixpoint insert_scan (fuel : nat) (m : gmap Z Access) (cur : Z)
    (pointer action : Z) : result unit :=
  if cur =? 0 then Ok tt
  else match fuel with
       | O => Err OutOfFuel
       | S fuel' =>
         do c <- load m cur;
         (* Ignore accesses to different values. *)
         if negb (Pointer c =? pointer)
         then insert_scan fuel' m (Access_getNext c) pointer action
         (* If both accesses are reads, it's not a conflict. *)
         else if (action =? Read) && (action =? Access_getAccessAction c)
         then insert_scan fuel' m (Access_getNext c) pointer action
         (* Otherwise, it's a conflict. *)
         else Err Conflict
       end.

(** [AccessSet::insert]; the result is the memory, the new [Head] and
    the returned flag. *)
Definition AccessSet_insert (fuel : nat) (m : gmap Z Access) (Head : Z)
    (access pc pointer flags : Z) : result (gmap Z Access * Z * bool) :=
  let action := getAccessAction flags in
  insert_scan fuel m Head pointer action;;
  if negb (isTracking flags) then Ok (m, Head, false)
  else
    (* Insert to the front of the array. *)
    do m' <- store m access (Access_initialize pc pointer Head action);
    Ok (m', access, true).

(** The walk of [AccessSet::remove] past the head:
    [for (cur = cur->getNext(); cur != nullptr; last = cur, cur = cur->getNext())]. *)
Fixpoint remove_walk (fuel : nat) (m : gmap Z Access) (last cur access : Z)
    : result (gmap Z Access) :=
  if cur =? 0 then Err Unreachable   (* access not found in set *)
  else match fuel with
       | O => Err OutOfFuel
       | S fuel' =>
         (if NDEBUG then Ok tt
          else do l <- load m last; assert (Access_getNext l =? cur));;
         if cur =? access then
           do c <- load m cur;
           do l <- load m last;
           store m last (Access_setNext l (Access_getNext c))
         else
           do c <- load m cur;
           remove_walk fuel' m cur (Access_getNext c) access
       end.

(** [AccessSet::remove]; the result is the memory and the new [Head]. *)
Definition AccessSet_remove (fuel : nat) (m : gmap Z Access) (Head : Z)
    (access : Z) : result (gmap Z Access * Z) :=
  assert (negb (Head =? 0));;
  let cur := Head in
  (* Fast path: stack discipline. *)
  if cur =? access then
    do c <- load m cur;
    Ok (m, Access_getNext c)
  else
    do c <- load m cur;
    do m' <- remove_walk fuel m cur (Access_getNext c) access;
    Ok (m', Head).

(** The walk of [AccessSet::findParentAccess]. *)
Fixpoint findParent_walk (fuel : nat) (m : gmap Z Access)
    (last cur childAccess : Z) : result Z :=
  if cur =? 0 then Ok 0
  else match fuel with
       | O => Err OutOfFuel
       | S fuel' =>
         (if NDEBUG then Ok tt
          else do l <- load m last; assert (Access_getNext l =? cur));;
         if cur =? childAccess then Ok last
         else
           do c <- load m cur;
           findParent_walk fuel' m cur (Access_getNext c) childAccess
       end.

(** [AccessSet::findParentAccess]: the first step reads [Head->getNext()]
    without testing [Head]. *)
Definition AccessSet_findParentAccess (fuel : nat) (m : gmap Z Access)
    (Head : Z) (childAccess : Z) : result Z :=
  let cur := Head in
  do c <- load m cur;
  findParent_walk fuel m cur (Access_getNext c) childAccess.

(** The loop of [AccessSet::getTail]:
    [while (auto *next = cur->getNext()) cur = next;]. *)
Fixpoint getTail_walk (fuel : nat) (m : gmap Z Access) (cur : Z) : result Z :=
  match fuel with
  | O => Err OutOfFuel
  | S fuel' =>
    do c <- load m cur;
    let next := Access_getNext c in
    if next =? 0 then Ok cur else getTail_walk fuel' m next
  end.

Definition AccessSet_getTail (fuel : nat) (m : gmap Z Access) (Head : Z)
    : result Z :=
  let cur := Head in
  if cur =? 0 then Ok 0
  else
    do cur' <- getTail_walk fuel m cur;
    assert (negb (cur' =? 0));;
    Ok cur'.

(* ===================================================================== *)
(** ** Thread-local context and the begin/end entry points *)
(* ===================================================================== *)

(** The state the entry points act on: the scratch buffers, the head of
    [getTLSContext().accessSet], and the process-wide flag
    [_swift_disableExclusivityChecking]. *)
Record Runtime : Type := mkRuntime {
  buffers : gmap Z Access;
  tlsHead : Z;
  disableExclusivityChecking : bool
}.

(** [access->Pointer = nullptr]. *)
Definition clear_Pointer (m : gmap Z Access) (access : Z)
    : result (gmap Z Access) :=
  do a <- load m access;
  store m access {| Pointer := 0; PC := PC a; NextAndAction := NextAndAction a |}.

(** [swift_beginAccess]; [return_address] is what [get_return_address()]
    yields in the caller's frame. *)
Definition swift_beginAccess (fuel : nat) (return_address : Z) (rt : Runtime)
    (pointer buffer flags pc : Z) : result Runtime :=
  assert (negb (pointer =? 0));;
  let access := buffer in
  if disableExclusivityChecking rt then
    do m' <- clear_Pointer (buffers rt) access;
    Ok (mkRuntime m' (tlsHead rt) (disableExclusivityChecking rt))
  else
    let pc := if pc =? 0 then return_address else pc in
    do r <- AccessSet_insert fuel (buffers rt) (tlsHead rt) access pc pointer flags;
    let '(m', head', inserted) := r in
    if negb inserted then
      do m'' <- clear_Pointer m' access;
      Ok (mkRuntime m'' head' (disableExclusivityChecking rt))
    else Ok (mkRuntime m' head' (disableExclusivityChecking rt)).

(** [swift_endAccess]. *)
Definition swift_endAccess (fuel : nat) (rt : Runtime) (buffer : Z)
    : result Runtime :=
  let access := buffer in
  do a <- load (buffers rt) access;
  let pointer := Pointer a in
  if pointer =? 0 then Ok rt
  else
    do r <- AccessSet_remove fuel (buffers rt) (tlsHead rt) access;
    let '(m', head') := r in
    Ok (mkRuntime m' head' (disableExclusivityChecking rt)).

(* ===================================================================== *)
(** ** Concurrency support: the task's two saved words *)
(* ===================================================================== *)

(** [struct SwiftTaskThreadLocalContext { uintptr_t state[2]; }]. *)
Record SwiftTaskThreadLocalContext : Type := mkTaskCtx {
  state0 : Z;   (* state[0]: TaskFirstAccess *)
  state1 : Z    (* state[1]: TaskLastAccess *)
}.

Definition hasInitialAccessSet (t : SwiftTaskThreadLocalContext) : bool :=
  negb (state0 t =? 0).
Definition getTaskAccessSetHead (t : SwiftTaskThreadLocalContext) : Z := state0 t.
Definition getTaskAccessSetTail (t : SwiftTaskThreadLocalContext) : Z := state1 t.
Definition setTaskAccessSetHead (t : SwiftTaskThreadLocalContext) (newHead : Z) :=
  mkTaskCtx newHead (state1 t).
Definition setTaskAccessSetTail (t : SwiftTaskThreadLocalContext) (newTail : Z) :=
  mkTaskCtx (state0 t) newTail.

(** [swift_task_enterThreadLocalContext] (push); the result is the memory,
    the thread's new head and the task's new saved words. *)
Definition swift_task_enterThreadLocalContext (m : gmap Z Access) (Head : Z)
    (taskCtx : SwiftTaskThreadLocalContext)
    : result (gmap Z Access * Z * SwiftTaskThreadLocalContext) :=
  (* Handles push cases 1-4. *)
  if negb (hasInitialAccessSet taskCtx) then
    (* Handles push cases 1-2. *)
    if Head =? 0 then Ok (m, Head, taskCtx)
    (* Handles push cases 3-4. *)
    else Ok (m, Head, setTaskAccessSetHead taskCtx Head)
  (* Handles push cases 5-6. *)
  else if Head =? 0 then
    let Head' := getTaskAccessSetHead taskCtx in
    let taskCtx := setTaskAccessSetHead taskCtx 0 in
    let taskCtx := setTaskAccessSetTail taskCtx 0 in
    Ok (m, Head', taskCtx)
  (* Handles push cases 7-8. *)
  else
    let oldHead := Head in
    let tail := getTaskAccessSetTail taskCtx in
    let Head' := getTaskAccessSetHead taskCtx in
    do t <- load m tail;
    do m' <- store m tail (Access_setNext t oldHead);
    let taskCtx := setTaskAccessSetHead taskCtx oldHead in
    let taskCtx := setTaskAccessSetTail taskCtx 0 in
    Ok (m', Head', taskCtx).

(** [swift_task_exitThreadLocalContext] (pop). *)
Definition swift_task_exitThreadLocalContext (fuel : nat) (m : gmap Z Access)
    (Head : Z) (taskCtx : SwiftTaskThreadLocalContext)
    : result (gmap Z Access * Z * SwiftTaskThreadLocalContext) :=
  let oldHead := getTaskAccessSetHead taskCtx in
  (* Handles pop cases 1,2,5,6 *)
  if oldHead =? 0 then
    (* Handles pop cases 1,5 *)
    if Head =? 0 then
      assert (getTaskAccessSetTail taskCtx =? 0);;
      Ok (m, Head, taskCtx)
    (* Handles pop cases 2,6 *)
    else
      let newHead := Head in
      do newTail <- AccessSet_getTail fuel m Head;
      assert (negb (newTail =? 0));;
      let taskCtx := setTaskAccessSetHead taskCtx newHead in
      let taskCtx := setTaskAccessSetTail taskCtx newTail in
      Ok (m, 0, taskCtx)
  (* Handles pop cases 3. *)
  else if Head =? oldHead then
    let taskCtx := setTaskAccessSetHead taskCtx 0 in
    let taskCtx := setTaskAccessSetTail taskCtx 0 in
    Ok (m, Head, taskCtx)
  (* Handles pop cases 4,7,8. *)
  else
    let newHead := Head in
    do newEnd <- AccessSet_findParentAccess fuel m Head oldHead;
    do e <- load m newEnd;
    do m' <- store m newEnd (Access_setNext e 0);
    let taskCtx := setTaskAccessSetHead taskCtx newHead in
    let taskCtx := setTaskAccessSetTail taskCtx newEnd in
    Ok (m', oldHead, taskCtx).

End Runtime.

(* ===================================================================== *)
(** ** Describing the heap: well-formed lists of accesses *)
(* ===================================================================== *)

Section Shapes.
Context {abi : ExclusivityABI}.

(** A pointer to an [Access]: in range, and with the action bits clear
    (an [Access] is pointer-aligned). *)
Definition valid_ptr (p : Z) : Prop :=
  0 <= p < uintptr_modulus /\ Z.land p ActionMask = 0.

(** [is_seg m p l q]: following [getNext] from [p] visits exactly the
    records at addresses [l], in that order, and then reaches [q]. *)
Fixpoint is_seg (m : gmap Z Access) (p : Z) (l : list Z) (q : Z) : Prop :=
  match l with
  | [] => p = q
  | a :: l' =>
    p = a /\ exists c, load m a = Ok c /\ is_seg m (Access_getNext c) l' q
  end.

(** A null-terminated list: the shape of an [AccessSet] with head [p]. *)
Definition is_list (m : gmap Z Access) (p : Z) (l : list Z) : Prop :=
  is_seg m p l 0.

(** The conflict rule: same storage pointer, and one of the two actions
    is [Modify]. *)
Definition conflicts (pointer action : Z) (c : Access) : Prop :=
  Pointer c = pointer /\ (action = Modify \/ Access_getAccessAction c = Modify).

(** A task's saved span [(T_begin, T_end)] while it is suspended: both
    null, or the head and the last node of a null-terminated list. *)
Definition is_span (m : gmap Z Access) (t : SwiftTaskThreadLocalContext)
    (l : list Z) : Prop :=
  is_list m (state0 t) l /\
  match last l with
  | Some e => state1 t = e
  | None => state1 t = 0
  end.

End Shapes.

(** A concrete ABI to run the model on: a one-bit action code
    ([Read] = 0, [Modify] = 1) and a tracking bit above it. *)
Definition abi_one_bit (ndebug : bool) : ExclusivityABI :=
  {| NDEBUG := ndebug;
     ActionMask := 1;
     Read := 0;
     Modify := 1;
     getAccessAction := fun flags => Z.land flags 1;
     isTracking := fun flags => negb (Z.land flags 32 =? 0) |}.

(* ===================================================================== *)
(** ** Diagnostics: what a conflict reports, and the debug dump *)
(* ===================================================================== *)

Section Diagnostics.
Context {abi : ExclusivityABI}.

(** [getAccessName]. *)
Definition getAccessName (flags : Z) : string :=
  if flags =? Read then "read"
  else if flags =? Modify then "modification"
  else "unknown".

(** The arguments [AccessSet::insert] hands to
    [reportExclusivityConflict] before it calls [fatalError]. *)
Record ConflictReport : Type := mkConflictReport {
  oldAction : Z;
  oldPC : Z;
  newFlags : Z;
  newPC : Z;
  conflictPointer : Z
}.

(** The two access names the reporter prints: the previous access is
    named from [oldAction], the current one from
    [getAccessAction(newFlags)]. *)
Definition reported_old_name (r : ConflictReport) : string :=
  getAccessName (oldAction r).
Definition reported_new_name (r : ConflictReport) : string :=
  getAccessName (getAccessAction (newFlags r)).

(** The scan of [AccessSet::insert] once more, keeping the report:
    [Ok None] when the loop runs off the end of the list, [Ok (Some r)]
    when it stops to report [r]. *)
Fixpoint insert_scan_report (fuel : nat) (m : gmap Z Access) (cur : Z)
    (pc pointer flags : Z) : result (option ConflictReport) :=
  let action := getAccessAction flags in
  if cur =? 0 then Ok None
  else match fuel with
       | O => Err OutOfFuel
       | S fuel' =>
         do c <- load m cur;
         if negb (Pointer c =? pointer)
         then insert_scan_report fuel' m (Access_getNext c) pc pointer flags
         else if (action =? Read) && (action =? Access_getAccessAction c)
         then insert_scan_report fuel' m (Access_getNext c) pc pointer flags
         else Ok (Some (mkConflictReport (Access_getAccessAction c) (PC c)
                                         flags pc pointer))
       end.

(** [AccessSet::forEach] (asserts builds only), for an action that
    reads the buffers and updates a state of its own:
    [for (auto *iter = Head; iter != nullptr; iter = iter->getNext())]. *)
Fixpoint AccessSet_forEach {S : Type} (fuel : nat) (m : gmap Z Access)
    (iter : Z) (action : Z -> S -> result S) (s : S) : result S :=
  if iter =? 0 then Ok s
  else match fuel with
       | O => Err OutOfFuel
       | S fuel' =>
         do s' <- action iter s;
         do c <- load m iter;
         AccessSet_forEach fuel' m (Access_getNext c) action s'
       end.

(** A line written to stderr by [swift_dumpTrackedAccesses]: either
    "No Accesses." or "Access. Pointer: %p. PC: %p. AccessAction: %s". *)
Inductive dump_line : Type :=
  | NoAccesses
  | AccessLine (pointer pc : Z) (name : string).

(** [swift_dumpTrackedAccesses]; [out] is what stderr holds so far. *)
Definition swift_dumpTrackedAccesses (fuel : nat) (m : gmap Z Access)
    (Head : Z) (out : list dump_line) : result (list dump_line) :=
  if Head =? 0 then Ok (out ++ [NoAccesses])
  else
    AccessSet_forEach fuel m Head
      (fun a out =>
         do c <- load m a;
         Ok (out ++ [AccessLine (Pointer c) (PC c)
                       (getAccessName (Access_getAccessAction c))]))
      out.

End Diagnostics.

(* ===================================================================== *)
(** ** The function-replacement flag of the thread-local context *)
(* ===================================================================== *)

(** [class SwiftTLSContext]: the access set's head and the flag. *)
Record SwiftTLSContext : Type := mkTLSContext {
  accessSet : Z;
  CallOriginalOfReplacedFunction : bool
}.

Section Replacement.
(** [SWIFT_PTRAUTH] and, when it is set, what
    [ptrauth_strip(_, ptrauth_key_function_pointer)] computes. *)
Variable SWIFT_PTRAUTH : bool.
Variable ptrauth_strip : Z -> Z.

(** Reading a [char *] cell such as [*ReplFnPtr]. *)
Definition load_fn (cells : gmap Z Z) (p : Z) : result Z :=
  if p =? 0 then Err BadPointer
  else match cells !! p with
       | Some f => Ok f
       | None => Err BadPointer
       end.

(** [swift_getFunctionReplacement]; the result is the context and the
    returned function pointer. *)
Definition swift_getFunctionReplacement (cells : gmap Z Z)
    (ctx : SwiftTLSContext) (ReplFnPtr CurrFn : Z)
    : result (SwiftTLSContext * Z) :=
  do ReplFn <- load_fn cells ReplFnPtr;
  let RawReplFn := if SWIFT_PTRAUTH then ptrauth_strip ReplFn else ReplFn in
  if RawReplFn =? CurrFn then Ok (ctx, 0)
  else if CallOriginalOfReplacedFunction ctx then
    Ok (mkTLSContext (accessSet ctx) false, 0)
  else Ok (ctx, ReplFn).

(** [swift_getOrigOfReplaceable]. *)
Definition swift_getOrigOfReplaceable (cells : gmap Z Z)
    (ctx : SwiftTLSContext) (OrigFnPtr : Z)
    : result (SwiftTLSContext * Z) :=
  do OrigFn <- load_fn cells OrigFnPtr;
  Ok (mkTLSContext (accessSet ctx) true, OrigFn).

End Replacement.

(* ===================================================================== *)
(** ** Runs of begin/end calls *)
(* ===================================================================== *)

Section Runs.
Context {abi : ExclusivityABI}.

(** One [swift_beginAccess(pointer, buffer, flags, pc)] call. *)
Record BeginCall : Type := mkBeginCall {
  call_pointer : Z;
  call_buffer : Z;
  call_flags : Z;
  call_pc : Z
}.

(** The calls of a list, one after the other on the same thread. *)
Fixpoint begin_all (fuel : nat) (return_address : Z) (rt : Runtime)
    (calls : list BeginCall) : result Runtime :=
  match calls with
  | [] => Ok rt
  | c :: calls' =>
    do rt' <- swift_beginAccess fuel return_address rt
                (call_pointer c) (call_buffer c) (call_flags c) (call_pc c);
    begin_all fuel return_address rt' calls'
  end.

Fixpoint end_all (fuel : nat) (rt : Runtime) (bufs : list Z) : result Runtime :=
  match bufs with
  | [] => Ok rt
  | b :: bufs' =>
    do rt' <- swift_endAccess fuel rt b;
    end_all fuel rt' bufs'
  end.

(** The storage pointers recorded in the buffers at [l]. *)
Definition pointer_at (m : gmap Z Access) (a : Z) : Z :=
  match m !! a with
  | Some c => Pointer c
  | None => 0
  end.

(** The fields of a record that relinking keeps. *)
Definition same_access (c c' : Access) : Prop :=
  Pointer c' = Pointer c /\ PC c' = PC c /\
  Access_getAccessAction c' = Access_getAccessAction c.

End Runs.

(* ===================================================================== *)
(** ** A small heap to run the runtime on *)
(* ===================================================================== *)

(** Asserts build, one action bit. *)
Definition ex_abi : ExclusivityABI := abi_one_bit false.

(** Two synchronous accesses on the thread, newest first:
    a Modify of 0x2000 at address 32, then a Read of 0x1000 at 16;
    two accesses saved by a suspended task: a Modify of 0x3000 at 64,
    then a Read of 0x4000 at 80;
    and a scratch buffer at 48 that is not in use. *)
Definition ex_R1 : Access := mkAccess 4096 257 0.
Definition ex_R2 : Access := mkAccess 8192 258 17.
Definition ex_T1 : Access := mkAccess 12288 259 81.
Definition ex_T2 : Access := mkAccess 16384 260 0.
Definition ex_scratch : Access := mkAccess 7 7 7.

Definition ex_mem : gmap Z Access :=
  <[16 := ex_R1]> (<[32 := ex_R2]> (<[48 := ex_scratch]>
    (<[64 := ex_T1]> (<[80 := ex_T2]> ∅)))).

Definition ex_task : SwiftTaskThreadLocalContext := mkTaskCtx 64 80.

Definition ex_rt (disabled : bool) : Runtime := mkRuntime ex_mem 32 disabled.

(** The same heap with a second thread's access (a Read of 0x7000 at
    address 96) and a second unused scratch buffer at 112; and the heap
    as it is while the task runs on the first thread, its last record
    linked to the thread's head. *)
Definition ex_B1 : Access := mkAccess 28672 261 0.

Definition ex_heap : gmap Z Access :=
  <[112 := ex_scratch]> (<[96 := ex_B1]> ex_mem).

Definition ex_running : gmap Z Access :=
  <[80 := mkAccess 16384 260 32]> ex_heap.

(** Two tracked accesses to begin: a Modify of 0x5000 in buffer 48 and a
    Read of 0x6000 in buffer 112. *)
Definition ex_calls : list BeginCall :=
  [mkBeginCall 20480 48 33 0; mkBeginCall 24576 112 32 7].

(** Two function-pointer cells. *)
Definition ex_cells : gmap Z Z := <[200 := 1000]> (<[208 := 2000]> ∅).

(* ===================================================================== *)
(** ** The tagged next pointer *)
(* ===================================================================== *)

Section TaggedPointer.
Context {abi : ExclusivityABI}.

Lemma NextMask_testbit n :
  0 <= n ->
  Z.testbit NextMask n = (n <? uintptr_bits) && negb (Z.testbit ActionMask n).
Proof.
  intros Hn. unfold NextMask, uintptr_modulus.
  destruct (Z.ltb_spec n uintptr_bits) as [Hlt|Hge]; simpl.
  - rewrite Z.mod_pow2_bits_low by lia. now rewrite Z.lnot_spec.
  - apply Z.mod_pow2_bits_high. unfold uintptr_bits in *. lia.
Qed.

Lemma in_range_testbit p n :
  0 <= p < uintptr_modulus -> uintptr_bits <= n -> Z.testbit p n = false.
Proof.
  intros Hp Hn. rewrite <- (Z.mod_small p uintptr_modulus) by lia.
  apply Z.mod_pow2_bits_high. unfold uintptr_bits in *. lia.
Qed.

Lemma testbit_in_range p :
  0 <= p ->
  (forall n, uintptr_bits <= n -> Z.testbit p n = false) ->
  0 <= p < uintptr_modulus.
Proof.
  intros Hp Hbits. split; [assumption|].
  rewrite <- (Z.mod_small p uintptr_modulus); [apply Z.mod_pos_bound; reflexivity|].
  split; [assumption|].
  destruct (Z.lt_ge_cases p uintptr_modulus) as [|Hge]; [assumption|].
  exfalso.
  assert (Hpos : 0 < p) by (unfold uintptr_modulus, uintptr_bits in *; lia).
  pose proof (Z.bit_log2 p Hpos) as Hbit.
  rewrite Hbits in Hbit; [discriminate|].
  apply Z.log2_le_pow2; [assumption|exact Hge].
Qed.

Lemma getNext_valid a : valid_ptr (Access_getNext a).
Proof.
  unfold valid_ptr, Access_getNext. split.
  - apply testbit_in_range.
    + apply Z.land_nonneg. right. unfold NextMask.
      apply Z.mod_pos_bound. reflexivity.
    + intros n Hn. rewrite Z.land_spec, NextMask_testbit
        by (unfold uintptr_bits in *; lia).
      destruct (Z.ltb_spec n uintptr_bits); [lia|].
      now rewrite andb_false_r.
  - apply Z.bits_inj'. intros n Hn.
    rewrite !Z.land_spec, NextMask_testbit, Z.bits_0 by assumption.
    destruct (Z.testbit (NextAndAction a) n), (n <? uintptr_bits),
      (Z.testbit ActionMask n); reflexivity.
Qed.

Lemma valid_ptr_0 : valid_ptr 0.
Proof.
  split; [unfold uintptr_modulus, uintptr_bits; lia | apply Z.land_0_l].
Qed.

(** Tagging an aligned pointer with an action and reading the link back. *)
Lemma tag_next p act :
  valid_ptr p -> Z.land act ActionMask = act ->
  Z.land (Z.lor p act) NextMask = p.
Proof.
  intros [Hr Hal] Hact. apply Z.bits_inj'. intros n Hn.
  rewrite Z.land_spec, Z.lor_spec, NextMask_testbit by assumption.
  pose proof (f_equal (fun z => Z.testbit z n) Hal) as Hp.
  pose proof (f_equal (fun z => Z.testbit z n) Hact) as Ha.
  simpl in Hp, Ha. rewrite Z.land_spec in Hp, Ha. rewrite Z.bits_0 in Hp.
  destruct (Z.ltb_spec n uintptr_bits) as [Hlt|Hge].
  - destruct (Z.testbit p n), (Z.testbit act n), (Z.testbit ActionMask n);
      simpl in *; congruence.
  - rewrite (in_range_testbit p n Hr Hge) in *.
    destruct (Z.testbit act n), (Z.testbit ActionMask n); simpl in *; congruence.
Qed.

Lemma tag_action p act :
  valid_ptr p -> Z.land act ActionMask = act ->
  Z.land (Z.lor p act) ActionMask = act.
Proof.
  intros [_ Hal] Hact.
  now rewrite Z.land_lor_distr_l, Hal, Hact, Z.lor_0_l.
Qed.

Lemma land_mask_idem w : Z.land (Z.land w ActionMask) ActionMask = Z.land w ActionMask.
Proof. now rewrite <- Z.land_assoc, Z.land_diag. Qed.

Lemma getNext_setNext a next :
  valid_ptr next -> Access_getNext (Access_setNext a next) = next.
Proof.
  intros Hv. unfold Access_getNext, Access_setNext. simpl.
  apply tag_next; [assumption | apply land_mask_idem].
Qed.

Lemma getAccessAction_setNext a next :
  valid_ptr next ->
  Access_getAccessAction (Access_setNext a next) = Access_getAccessAction a.
Proof.
  intros Hv. unfold Access_getAccessAction, Access_setNext. simpl.
  apply tag_action; [assumption | apply land_mask_idem].
Qed.

Lemma getNext_initialize pc pointer next action :
  valid_ptr next -> Z.land action ActionMask = action ->
  Access_getNext (Access_initialize pc pointer next action) = next.
Proof. intros. unfold Access_getNext. simpl. now apply tag_next. Qed.

Lemma getAccessAction_initialize pc pointer next action :
  valid_ptr next -> Z.land action ActionMask = action ->
  Access_getAccessAction (Access_initialize pc pointer next action) = action.
Proof. intros. unfold Access_getAccessAction. simpl. now apply tag_action. Qed.

(** A record whose link is null holds nothing but its action bits, so
    that linking it and unlinking it again gives the same word back. *)
Lemma setNext_null_id a :
  0 <= NextAndAction a < uintptr_modulus ->
  Access_getNext a = 0 ->
  Access_setNext a 0 = a.
Proof.
  intros Hr Hn. destruct a as [p pc w]. unfold Access_setNext, Access_getNext in *.
  simpl in *. f_equal. rewrite Z.lor_0_l.
  apply Z.bits_inj'. intros n Hge.
  pose proof (f_equal (fun z => Z.testbit z n) Hn) as Hb. simpl in Hb.
  rewrite Z.land_spec, NextMask_testbit, Z.bits_0 in Hb by assumption.
  rewrite Z.land_spec.
  destruct (Z.ltb_spec n uintptr_bits) as [Hlt|Hhi].
  - destruct (Z.testbit w n), (Z.testbit ActionMask n); simpl in *; congruence.
  - rewrite (in_range_testbit w n Hr Hhi). reflexivity.
Qed.

Lemma setNext_setNext a p q :
  valid_ptr p ->
  Access_setNext (Access_setNext a p) q = Access_setNext a q.
Proof.
  intros Hv. unfold Access_setNext. simpl. f_equal. f_equal.
  apply tag_action; [assumption | apply land_mask_idem].
Qed.

End TaggedPointer.

(* ===================================================================== *)
(** ** Memory and list segments *)
(* ===================================================================== *)

Section Segments.
Context {abi : ExclusivityABI}.

Lemma load_Ok m p a : load m p = Ok a <-> p <> 0 /\ m !! p = Some a.
Proof.
  unfold load. destruct (Z.eqb_spec p 0) as [->|Hp].
  - split; [discriminate | intros [? _]; congruence].
  - destruct (m !! p) as [b|]; split; intros H; try discriminate.
    + inversion H; subst; auto.
    + destruct H as [_ H]. congruence.
    + destruct H as [_ H]. discriminate.
Qed.

Lemma load_Err m p e : load m p = Err e -> e = BadPointer.
Proof.
  unfold load. destruct (p =? 0); [congruence|].
  destruct (m !! p); [discriminate | congruence].
Qed.

Lemma load_null m : load m 0 = Err BadPointer.
Proof. reflexivity. Qed.

Lemma load_insert_eq m p a : p <> 0 -> load (<[p := a]> m) p = Ok a.
Proof. intros Hp. apply load_Ok. split; [assumption | apply lookup_insert_eq]. Qed.

Lemma load_insert_ne m p q a : p <> q -> load (<[p := a]> m) q = load m q.
Proof.
  intros Hne. unfold load. destruct (q =? 0); [reflexivity|].
  now rewrite lookup_insert_ne.
Qed.

Lemma store_Ok m p a b : load m p = Ok b -> store m p a = Ok (<[p := a]> m).
Proof. intros H. unfold store. now rewrite H. Qed.

Lemma is_seg_app m p l1 l2 q :
  is_seg m p (l1 ++ l2) q <-> exists r, is_seg m p l1 r /\ is_seg m r l2 q.
Proof.
  revert p. induction l1 as [|a l1 IH]; intros p; simpl.
  - split; [intros H; exists p; auto | intros (r & -> & H); exact H].
  - split.
    + intros (-> & c & Hc & Hs). apply IH in Hs as (r & H1 & H2).
      exists r. split; [|exact H2]. split; [reflexivity|]. exists c. auto.
    + intros (r & (-> & c & Hc & H1) & H2). split; [reflexivity|].
      exists c. split; [exact Hc|]. apply IH. exists r. auto.
Qed.

Lemma is_seg_snoc m p l a q :
  is_seg m p (l ++ [a]) q <->
  is_seg m p l a /\ exists c, load m a = Ok c /\ Access_getNext c = q.
Proof.
  rewrite is_seg_app. simpl. split.
  - intros (r & H1 & -> & c & Hc & Hq). split; [exact H1|]. exists c. auto.
  - intros (H1 & c & Hc & Hq). exists a. split; [exact H1|].
    split; [reflexivity|]. exists c. auto.
Qed.

(** A segment only depends on the links of its own records. *)
Lemma is_seg_frame m m' p l q :
  (forall a c, a ∈ l -> load m a = Ok c ->
     exists c', load m' a = Ok c' /\ Access_getNext c' = Access_getNext c) ->
  is_seg m p l q -> is_seg m' p l q.
Proof.
  revert p. induction l as [|a l IH]; intros p Hfr; simpl; [auto|].
  intros (-> & c & Hc & Hs). split; [reflexivity|].
  destruct (Hfr a c) as (c' & Hc' & Hn); [left | exact Hc |].
  exists c'. split; [exact Hc'|]. rewrite Hn. apply IH; [|exact Hs].
  intros b d Hb. apply Hfr. now right.
Qed.

Lemma is_seg_insert_notin m p l q x a :
  x ∉ l -> is_seg m p l q -> is_seg (<[x := a]> m) p l q.
Proof.
  intros Hx. apply is_seg_frame. intros b c Hb Hc. exists c.
  split; [|reflexivity]. rewrite load_insert_ne; [exact Hc|].
  intros ->. contradiction.
Qed.

Lemma is_list_inj m p l l' : is_list m p l -> is_list m p l' -> l = l'.
Proof.
  unfold is_list. revert p l'. induction l as [|a l IH]; intros p l'; simpl.
  - intros ->. destruct l' as [|b l']; [reflexivity|]. simpl.
    intros (<- & c & Hc & _). rewrite load_null in Hc. discriminate.
  - intros (-> & c & Hc & Hs). destruct l' as [|b l']; simpl.
    + intros ->. rewrite load_null in Hc. discriminate.
    + intros (<- & c' & Hc' & Hs'). rewrite Hc in Hc'. inversion Hc'; subst c'.
      f_equal. eapply IH; eassumption.
Qed.

Lemma is_list_NoDup m p l : is_list m p l -> NoDup l.
Proof.
  revert p. induction l as [|a l IH]; intros p Hl; [constructor|].
  pose proof Hl as (-> & c & Hc & Hs). constructor.
  - intros Hin. apply list_elem_of_split in Hin as (l1 & l2 & ->).
    fold (is_list m (Access_getNext c) (l1 ++ a :: l2)) in Hs.
    unfold is_list in Hs. apply is_seg_app in Hs as (r & _ & Hr).
    pose proof Hr as (-> & _). fold (is_list m a (a :: l2)) in Hr.
    pose proof (is_list_inj _ _ _ _ Hl Hr) as Heq.
    apply (f_equal length) in Heq. simpl in Heq. rewrite length_app in Heq.
    simpl in Heq. lia.
  - eapply IH. exact Hs.
Qed.

Lemma is_seg_head m p a l q : is_seg m p (a :: l) q -> p = a /\ a <> 0.
Proof.
  intros (-> & c & Hc & _). split; [reflexivity|]. now apply load_Ok in Hc.
Qed.

Lemma is_seg_elem_load m p l q a :
  is_seg m p l q -> a ∈ l -> exists c, load m a = Ok c.
Proof.
  intros Hs Hin. apply list_elem_of_split in Hin as (l1 & l2 & ->).
  apply is_seg_app in Hs as (r & _ & (_ & c & Hc & _)). eauto.
Qed.

Lemma is_list_nil m p : is_list m p [] <-> p = 0.
Proof. reflexivity. Qed.

Lemma is_list_null m l : is_list m 0 l -> l = [].
Proof.
  destruct l as [|a l]; [reflexivity|]. intros H.
  apply is_seg_head in H as [<- H]. contradiction.
Qed.

(** Splicing [nxt] after the last record of [l0], in place of whatever
    followed it, when the rest of the chain [l2] does not meet [l0]. *)
Lemma is_seg_relink m p l0 pred pc nxt l2 q :
  NoDup (l0 ++ pred :: l2) ->
  is_seg m p l0 pred -> load m pred = Ok pc ->
  is_seg m nxt l2 q -> valid_ptr nxt ->
  is_seg (<[pred := Access_setNext pc nxt]> m) p (l0 ++ pred :: l2) q.
Proof.
  intros Hnd H0 Hpc H2 Hv.
  apply NoDup_app in Hnd as (_ & Hdisj & Hnd2). apply NoDup_cons in Hnd2 as (Hp2 & _).
  apply is_seg_app. exists pred. split.
  - apply is_seg_insert_notin; [|exact H0]. intros Hin.
    apply (Hdisj pred Hin). left.
  - split; [reflexivity|]. exists (Access_setNext pc nxt). split.
    + apply load_insert_eq. now apply load_Ok in Hpc.
    + rewrite getNext_setNext by exact Hv.
      apply is_seg_insert_notin; assumption.
Qed.

End Segments.

(* ===================================================================== *)
(** ** AccessSet::insert *)
(* ===================================================================== *)

Section Insert.
Context {abi : ExclusivityABI}.

(** The scan either stops at a record with the same pointer that is
    not a read/read pair, or runs to the end of the list. *)
Lemma insert_scan_spec fuel m p l pointer action :
  is_list m p l -> (length l <= fuel)%nat ->
  (insert_scan fuel m p pointer action = Err Conflict /\
   exists a c, a ∈ l /\ load m a = Ok c /\ Pointer c = pointer /\
               ~ (action = Read /\ Access_getAccessAction c = Read))
  \/
  (insert_scan fuel m p pointer action = Ok tt /\
   forall a c, a ∈ l -> load m a = Ok c -> Pointer c = pointer ->
               action = Read /\ Access_getAccessAction c = Read).
Proof.
  revert p l. induction fuel as [|fuel IH]; intros p l Hl Hlen.
  - destruct l; [|simpl in Hlen; lia]. apply is_list_nil in Hl. subst p.
    right. split; [reflexivity|]. intros a c Hin. inversion Hin.
  - destruct l as [|a l].
    + apply is_list_nil in Hl. subst p. right. split; [reflexivity|].
      intros a c Hin. inversion Hin.
    + pose proof (is_seg_head _ _ _ _ _ Hl) as [-> Ha].
      destruct Hl as (_ & c & Hc & Hs). simpl.
      destruct (Z.eqb_spec a 0) as [|_]; [contradiction|].
      rewrite Hc. simpl.
      assert (Hrec : (length l <= fuel)%nat) by (simpl in Hlen; lia).
      specialize (IH (Access_getNext c) l Hs Hrec).
      assert (Hskip :
        (Pointer c = pointer -> action = Read /\ Access_getAccessAction c = Read) ->
        (insert_scan fuel m (Access_getNext c) pointer action = Err Conflict /\
         exists a0 c0, a0 ∈ a :: l /\ load m a0 = Ok c0 /\ Pointer c0 = pointer /\
               ~ (action = Read /\ Access_getAccessAction c0 = Read))
        \/
        (insert_scan fuel m (Access_getNext c) pointer action = Ok tt /\
         forall a0 c0, a0 ∈ a :: l -> load m a0 = Ok c0 -> Pointer c0 = pointer ->
               action = Read /\ Access_getAccessAction c0 = Read)).
      { intros Hhere. destruct IH as [(He & a0 & c0 & Hin & H0)|(He & Hall)].
        - left. split; [exact He|]. exists a0, c0. split; [now right | exact H0].
        - right. split; [exact He|]. intros a0 c0 Hin Hc0 Hp.
          apply elem_of_cons in Hin as [->|Hin].
          + rewrite Hc in Hc0. inversion Hc0; subst c0. now apply Hhere.
          + eapply Hall; eassumption. }
      destruct (Z.eqb_spec (Pointer c) pointer) as [Hp|Hp]; simpl.
      * destruct (Z.eqb_spec action Read) as [Hr|Hr]; simpl.
        -- destruct (Z.eqb_spec action (Access_getAccessAction c)) as [Hq|Hq].
           ++ apply Hskip. intros _. split; congruence.
           ++ left. split; [reflexivity|]. exists a, c.
              split; [left|]. split; [exact Hc|]. split; [exact Hp|].
              intros [_ Hx]. congruence.
        -- left. split; [reflexivity|]. exists a, c.
           split; [left|]. split; [exact Hc|]. split; [exact Hp|].
           intros [Hx _]. contradiction.
      * apply Hskip. intros Hx. contradiction.
Qed.

Context {laws : ExclusivityABILaws abi}.

Lemma flags_action_cases flags :
  getAccessAction flags = Read \/ getAccessAction flags = Modify.
Proof. rewrite <- action_in_mask. apply action_cases. Qed.

Lemma record_action_cases c :
  Access_getAccessAction c = Read \/ Access_getAccessAction c = Modify.
Proof. apply action_cases. Qed.

(** With two action codes, "not both reads" is "one of them modifies". *)
Lemma not_both_reads flags c :
  ~ (getAccessAction flags = Read /\ Access_getAccessAction c = Read) <->
  (getAccessAction flags = Modify \/ Access_getAccessAction c = Modify).
Proof.
  pose proof Read_neq_Modify.
  destruct (flags_action_cases flags), (record_action_cases c); split; intros Hx;
    try (left; assumption); try (right; assumption);
    try (exfalso; apply Hx; split; assumption);
    intros [? ?]; destruct Hx; congruence.
Qed.

(** C2: on a well-formed access set, insert ends in the fatal conflict
    report exactly when some listed record has the same storage pointer
    and the new action or that record's action is Modify; whatever the
    tracking bit and the pointer.  In particular a Read of storage that
    is only being read never conflicts. *)
Theorem C2_insert_conflict_iff fuel m Head l access pc pointer flags :
  is_list m Head l -> (length l <= fuel)%nat ->
  (AccessSet_insert fuel m Head access pc pointer flags = Err Conflict <->
   exists a c, a ∈ l /\ load m a = Ok c /\
               conflicts pointer (getAccessAction flags) c)
  /\
  (getAccessAction flags = Read ->
   (forall a c, a ∈ l -> load m a = Ok c -> Pointer c = pointer ->
                Access_getAccessAction c = Read) ->
   AccessSet_insert fuel m Head access pc pointer flags <> Err Conflict).
Proof.
  intros Hl Hlen.
  assert (Hiff :
    AccessSet_insert fuel m Head access pc pointer flags = Err Conflict <->
    exists a c, a ∈ l /\ load m a = Ok c /\
                conflicts pointer (getAccessAction flags) c).
  { unfold AccessSet_insert, conflicts.
    destruct (insert_scan_spec fuel m Head l pointer (getAccessAction flags) Hl Hlen)
      as [(He & a & c & Hin & Hc & Hp & Hn)|(He & Hall)]; rewrite He; simpl.
    - split; [intros _ | intros _; reflexivity]. exists a, c.
      split; [exact Hin|]. split; [exact Hc|]. split; [exact Hp|].
      now apply not_both_reads.
    - split.
      + destruct (isTracking flags); simpl; [|discriminate].
        unfold store. destruct (load m access) as [b|e] eqn:Hb; simpl; [discriminate|].
        apply load_Err in Hb. subst e. discriminate.
      + intros (a & c & Hin & Hc & Hp & Hm). exfalso.
        apply not_both_reads in Hm. apply Hm. eapply Hall; eassumption. }
  split; [exact Hiff|].
  intros Hread Hreads Hconf. apply Hiff in Hconf as (a & c & Hin & Hc & Hp & Hm).
  pose proof Read_neq_Modify.
  specialize (Hreads a c Hin Hc Hp). destruct Hm; congruence.
Qed.

(** C5: a tracked insert that meets no conflict writes the record
    (pc, pointer, action, next = old head) into the buffer, makes the
    buffer the new head and returns true; the new list is the buffer
    followed by the old list, and no other buffer is written.  This
    holds for every storage pointer, so for every non-null one. *)
Theorem C5_insert_tracked fuel m Head l access old pc pointer flags :
  is_list m Head l -> (length l <= fuel)%nat -> valid_ptr Head ->
  isTracking flags = true ->
  load m access = Ok old -> access ∉ l ->
  (forall a c, a ∈ l -> load m a = Ok c ->
               ~ conflicts pointer (getAccessAction flags) c) ->
  let r := Access_initialize pc pointer Head (getAccessAction flags) in
  AccessSet_insert fuel m Head access pc pointer flags
    = Ok (<[access := r]> m, access, true) /\
  Pointer r = pointer /\ PC r = pc /\
  Access_getAccessAction r = getAccessAction flags /\
  Access_getNext r = Head /\
  is_list (<[access := r]> m) access (access :: l) /\
  (forall p, p <> access -> (<[access := r]> m) !! p = m !! p).
Proof.
  intros Hl Hlen Hv Htr Hold Hnotin Hnc r.
  assert (Hnext : Access_getNext r = Head)
    by (apply getNext_initialize; [exact Hv | apply action_in_mask]).
  split; [|split; [reflexivity|split; [reflexivity|split; [|split; [exact Hnext|split]]]]].
  - unfold AccessSet_insert.
    destruct (insert_scan_spec fuel m Head l pointer (getAccessAction flags) Hl Hlen)
      as [(He & a & c & Hin & Hc & Hp & Hn)|(He & Hall)].
    + exfalso. apply (Hnc a c Hin Hc). split; [exact Hp|]. now apply not_both_reads.
    + rewrite He. simpl. rewrite Htr. simpl.
      rewrite (store_Ok _ _ _ _ Hold). reflexivity.
  - apply getAccessAction_initialize; [exact Hv | apply action_in_mask].
  - split; [reflexivity|]. exists r. split.
    + apply load_insert_eq. now apply load_Ok in Hold.
    + rewrite Hnext. apply is_seg_insert_notin; assumption.
  - intros p Hp. now apply lookup_insert_ne.
Qed.

End Insert.

(* ===================================================================== *)
(** ** AccessSet::remove, findParentAccess and getTail *)
(* ===================================================================== *)

Section Walks.
Context {abi : ExclusivityABI}.

Lemma assert_true : assert true = Ok tt.
Proof. unfold assert. now rewrite orb_true_r. Qed.

(** The consistency assert inside the two walks holds whenever [cur]
    was obtained from [last->getNext()]. *)
Lemma walk_check_ok m prev lc :
  load m prev = Ok lc ->
  (if NDEBUG then Ok tt
   else do l <- load m prev;
        assert (Access_getNext l =? Access_getNext lc)) = Ok tt.
Proof.
  intros H. destruct NDEBUG; [reflexivity|]. rewrite H. simpl.
  rewrite Z.eqb_refl. apply assert_true.
Qed.

Lemma load_nonnull m p a : load m p = Ok a -> (p =? 0) = false.
Proof. intros H. apply load_Ok in H as [H _]. now apply Z.eqb_neq. Qed.

Lemma remove_walk_spec l1 : forall fuel m prev lc access c pred,
  load m prev = Ok lc ->
  is_seg m (Access_getNext lc) l1 access ->
  load m access = Ok c -> access ∉ l1 ->
  (length l1 < fuel)%nat ->
  last (prev :: l1) = Some pred ->
  exists pc, load m pred = Ok pc /\
    remove_walk fuel m prev (Access_getNext lc) access
      = Ok (<[pred := Access_setNext pc (Access_getNext c)]> m).
Proof.
  induction l1 as [|a l1 IH]; intros fuel m prev lc access c pred
    Hprev Hseg Hc Hnotin Hfuel Hlast;
    (destruct fuel as [|fuel]; [simpl in Hfuel; lia|]).
  - simpl in Hseg, Hlast. inversion Hlast; subst pred. exists lc.
    split; [exact Hprev|]. simpl. rewrite Hseg at 1.
    rewrite (load_nonnull _ _ _ Hc), (walk_check_ok _ _ _ Hprev). simpl.
    rewrite Hseg, Z.eqb_refl, Hc. simpl. rewrite Hprev. simpl.
    apply (store_Ok _ _ _ _ Hprev).
  - destruct Hseg as (Ha & ca & Hca & Hseg).
    rewrite last_cons_cons in Hlast.
    assert (Hne : a <> access) by (intros ->; apply Hnotin; left).
    assert (Hnotin' : access ∉ l1) by (intros Hin; apply Hnotin; now right).
    destruct (IH fuel m a ca access c pred Hca Hseg Hc Hnotin') as (pc & Hpc & Hw);
      [simpl in Hfuel; lia | exact Hlast |].
    exists pc. split; [exact Hpc|]. simpl.
    rewrite (walk_check_ok _ _ _ Hprev). rewrite Ha.
    rewrite (load_nonnull _ _ _ Hca). simpl.
    destruct (Z.eqb_spec a access) as [|_]; [contradiction|].
    rewrite Hca. simpl. exact Hw.
Qed.

(** What [remove] does to a well-formed set that holds [access]. *)
Lemma remove_spec fuel m Head l1 access l2 :
  is_list m Head (l1 ++ access :: l2) ->
  (length (l1 ++ access :: l2) <= fuel)%nat ->
  exists c m' Head',
    load m access = Ok c /\
    AccessSet_remove fuel m Head access = Ok (m', Head') /\
    is_list m' Head' (l1 ++ l2) /\
    match last l1 with
    | None => m' = m /\ Head' = Access_getNext c
    | Some pred =>
      Head' = Head /\ pred <> access /\
      exists pc, load m pred = Ok pc /\
                 m' = <[pred := Access_setNext pc (Access_getNext c)]> m
    end.
Proof.
  intros Hl Hfuel. pose proof (is_list_NoDup _ _ _ Hl) as Hnd.
  pose proof Hl as Hsplit. unfold is_list in Hsplit.
  apply is_seg_app in Hsplit as (r & H1 & H2).
  pose proof H2 as (-> & c & Hc & Htail).
  apply NoDup_app in Hnd as (Hnd1 & Hdisj & Hnd2).
  apply NoDup_cons in Hnd2 as (Hacc2 & Hnd2).
  assert (Hnotin : access ∉ l1) by (intros Hin; apply (Hdisj _ Hin); left).
  destruct l1 as [|h l1].
  - (* fast path *)
    simpl in H1. subst Head. exists c, m, (Access_getNext c).
    split; [exact Hc|]. split; [|split; [exact Htail | split; reflexivity]].
    unfold AccessSet_remove. rewrite (load_nonnull _ _ _ Hc). simpl.
    rewrite assert_true. simpl. rewrite Z.eqb_refl, Hc. reflexivity.
  - destruct H1 as (-> & ch & Hch & H1).
    assert (Hne : h <> access) by (intros ->; apply Hnotin; left).
    assert (Hlast : exists pred, last (h :: l1) = Some pred).
    { destruct (last (h :: l1)) eqn:E; [eauto|]. apply last_None in E. discriminate. }
    destruct Hlast as (pred & Hlast).
    destruct (remove_walk_spec l1 fuel m h ch access c pred Hch H1 Hc) as (pc & Hpc & Hw).
    { intros Hin. apply Hnotin. now right. }
    { rewrite length_app in Hfuel. simpl in Hfuel. lia. }
    { exact Hlast. }
    exists c, (<[pred := Access_setNext pc (Access_getNext c)]> m), h.
    split; [exact Hc|]. rewrite Hlast.
    assert (Hpa : pred <> access).
    { intros ->. apply Hnotin. apply last_Some_elem_of. exact Hlast. }
    split; [|split; [|split; [reflexivity|split; [exact Hpa|eauto]]]].
    + unfold AccessSet_remove. rewrite (load_nonnull _ _ _ Hch). simpl.
      rewrite assert_true. simpl.
      destruct (Z.eqb_spec h access) as [|_]; [contradiction|].
      rewrite Hch. simpl. rewrite Hw. reflexivity.
    + apply last_Some in Hlast as (l0 & Hl0).
      assert (Hl' : is_list m h (l0 ++ pred :: access :: l2)).
      { unfold is_list. replace (l0 ++ pred :: access :: l2)
          with ((h :: l1) ++ access :: l2) by (rewrite Hl0, <- app_assoc; reflexivity).
        exact Hl. }
      rewrite Hl0, <- app_assoc. simpl.
      pose proof (is_list_NoDup _ _ _ Hl') as Hnd'.
      unfold is_list in Hl'. apply is_seg_app in Hl' as (r & Hs0 & Hs1).
      pose proof Hs1 as (-> & _).
      apply is_seg_relink; [| exact Hs0 | exact Hpc | exact Htail | apply getNext_valid].
      apply NoDup_app in Hnd' as (Ha & Hb & Hc').
      apply NoDup_app. split; [exact Ha|]. split.
      * intros x Hx Hin. apply (Hb x Hx).
        apply elem_of_cons in Hin as [->|Hin]; [left | right; now right].
      * apply NoDup_cons in Hc' as (Hp1 & Hc').
        apply NoDup_cons in Hc' as (_ & Hc').
        apply NoDup_cons. split; [|exact Hc'].
        intros Hin. apply Hp1. now right.
Qed.

Lemma findParent_walk_found l1 : forall fuel m prev lc child pred,
  load m prev = Ok lc ->
  is_seg m (Access_getNext lc) l1 child ->
  child <> 0 -> child ∉ l1 ->
  (length l1 < fuel)%nat ->
  last (prev :: l1) = Some pred ->
  findParent_walk fuel m prev (Access_getNext lc) child = Ok pred.
Proof.
  induction l1 as [|a l1 IH]; intros fuel m prev lc child pred
    Hprev Hseg Hc Hnotin Hfuel Hlast;
    (destruct fuel as [|fuel]; [simpl in Hfuel; lia|]).
  - simpl in Hseg, Hlast. inversion Hlast; subst pred. simpl.
    rewrite (walk_check_ok _ _ _ Hprev). rewrite Hseg.
    destruct (Z.eqb_spec child 0) as [|_]; [contradiction|]. simpl.
    now rewrite Z.eqb_refl.
  - destruct Hseg as (Ha & ca & Hca & Hseg).
    rewrite last_cons_cons in Hlast.
    assert (Hne : a <> child) by (intros ->; apply Hnotin; left).
    assert (Hnotin' : child ∉ l1) by (intros Hin; apply Hnotin; now right).
    simpl. rewrite (walk_check_ok _ _ _ Hprev). rewrite Ha.
    rewrite (load_nonnull _ _ _ Hca). simpl.
    destruct (Z.eqb_spec a child) as [|_]; [contradiction|].
    rewrite Hca. simpl. apply (IH fuel m a ca child pred); try assumption.
    simpl in Hfuel. lia.
Qed.

Lemma findParent_walk_absent l : forall fuel m prev lc child,
  load m prev = Ok lc ->
  is_list m (Access_getNext lc) l ->
  child ∉ l ->
  (length l <= fuel)%nat ->
  findParent_walk fuel m prev (Access_getNext lc) child = Ok 0.
Proof.
  induction l as [|a l IH]; intros fuel m prev lc child Hprev Hl Hnotin Hfuel.
  - apply is_list_nil in Hl. rewrite Hl. destruct fuel; reflexivity.
  - destruct fuel as [|fuel]; [simpl in Hfuel; lia|].
    destruct Hl as (Ha & ca & Hca & Hl).
    assert (Hne : a <> child) by (intros ->; apply Hnotin; left).
    assert (Hnotin' : child ∉ l) by (intros Hin; apply Hnotin; now right).
    simpl. rewrite (walk_check_ok _ _ _ Hprev). rewrite Ha.
    rewrite (load_nonnull _ _ _ Hca). simpl.
    destruct (Z.eqb_spec a child) as [|_]; [contradiction|].
    rewrite Hca. simpl. apply (IH fuel m a ca child); try assumption.
    simpl in Hfuel. lia.
Qed.

(** [findParentAccess] on a set with at least one record. *)
Lemma findParentAccess_spec fuel m Head h l child :
  is_list m Head (h :: l) ->
  (length (h :: l) <= fuel)%nat ->
  (child = h -> AccessSet_findParentAccess fuel m Head child = Ok 0) /\
  (child ∉ h :: l -> AccessSet_findParentAccess fuel m Head child = Ok 0) /\
  (forall l1 l2 pred, h :: l = l1 ++ child :: l2 -> last l1 = Some pred ->
     AccessSet_findParentAccess fuel m Head child = Ok pred).
Proof.
  intros Hl Hfuel. pose proof (is_list_NoDup _ _ _ Hl) as Hnd.
  pose proof Hl as (-> & ch & Hch & Htl).
  unfold AccessSet_findParentAccess. rewrite Hch. simpl.
  apply NoDup_cons in Hnd as (Hh & Hnd).
  split; [|split].
  - intros ->. eapply findParent_walk_absent; eauto. simpl in Hfuel. lia.
  - intros Hnotin. eapply findParent_walk_absent; eauto.
    + intros Hin. apply Hnotin. now right.
    + simpl in Hfuel. lia.
  - intros l1 l2 pred Heq Hlast. destruct l1 as [|x l1]; [discriminate|].
    simpl in Heq. inversion Heq; subst x l.
    unfold is_list in Htl. apply is_seg_app in Htl as (r & H1 & H2).
    pose proof (is_seg_head _ _ _ _ _ H2) as [-> Hc0].
    apply NoDup_app in Hnd as (_ & Hdisj & _).
    eapply findParent_walk_found; eauto.
    + intros Hin. apply (Hdisj _ Hin). left.
    + simpl in Hfuel. rewrite length_app in Hfuel. simpl in Hfuel. lia.
Qed.

Lemma getTail_walk_spec l : forall fuel m cur e,
  is_list m cur l -> last l = Some e ->
  (length l <= fuel)%nat ->
  getTail_walk fuel m cur = Ok e.
Proof.
  induction l as [|a l IH]; intros fuel m cur e Hl Hlast Hfuel; [discriminate|].
  destruct fuel as [|fuel]; [simpl in Hfuel; lia|].
  destruct Hl as (-> & ca & Hca & Hl). simpl. rewrite Hca. simpl.
  destruct l as [|b l].
  - apply is_list_nil in Hl. rewrite Hl. simpl. simpl in Hlast.
    inversion Hlast; reflexivity.
  - pose proof (is_seg_head _ _ _ _ _ Hl) as [Hb Hb0].
    destruct (Z.eqb_spec (Access_getNext ca) 0) as [|_]; [exfalso; lia|].
    apply (IH fuel m _ e Hl); [|simpl in *; lia].
    now rewrite last_cons_cons in Hlast.
Qed.

Lemma getTail_spec fuel m Head l e :
  is_list m Head l -> last l = Some e ->
  (length l <= fuel)%nat ->
  AccessSet_getTail fuel m Head = Ok e.
Proof.
  intros Hl Hlast Hfuel. unfold AccessSet_getTail.
  destruct l as [|a l]; [discriminate|].
  pose proof (is_seg_head _ _ _ _ _ Hl) as [-> Ha].
  destruct (Z.eqb_spec a 0) as [|_]; [contradiction|].
  rewrite (getTail_walk_spec _ _ _ _ _ Hl Hlast Hfuel). simpl.
  assert (He : e <> 0).
  { apply last_Some_elem_of in Hlast.
    destruct (is_seg_elem_load _ _ _ _ _ Hl Hlast) as (c & Hc).
    now apply load_Ok in Hc. }
  destruct (Z.eqb_spec e 0) as [|_]; [contradiction|]. simpl.
  rewrite assert_true. reflexivity.
Qed.

End Walks.

(* ===================================================================== *)
(** ** Claims about removal and parent lookup *)
(* ===================================================================== *)

Section Removal.
Context {abi : ExclusivityABI}.

(** C8: on a well-formed set that holds the record, remove returns
    normally (the not-found branch is not reached) and unlinks exactly
    that record.  When the record is the head, memory is untouched and
    the head becomes the record's next; otherwise the head stays and the
    only write is to the predecessor, whose link now skips the record
    while its pointer, pc and action stay as they were.  The remaining
    records are still listed, in their previous order. *)
Theorem C8_remove_unlinks fuel m Head l1 access l2 :
  is_list m Head (l1 ++ access :: l2) ->
  (length (l1 ++ access :: l2) <= fuel)%nat ->
  exists c m' Head',
    load m access = Ok c /\
    AccessSet_remove fuel m Head access = Ok (m', Head') /\
    is_list m' Head' (l1 ++ l2) /\
    match last l1 with
    | None => m' = m /\ Head' = Access_getNext c
    | Some pred =>
      Head' = Head /\
      exists pc pc',
        load m pred = Ok pc /\ load m' pred = Ok pc' /\
        Access_getNext pc' = Access_getNext c /\
        Pointer pc' = Pointer pc /\ PC pc' = PC pc /\
        Access_getAccessAction pc' = Access_getAccessAction pc /\
        forall p, p <> pred -> m' !! p = m !! p
    end.
Proof.
  intros Hl Hfuel.
  destruct (remove_spec fuel m Head l1 access l2 Hl Hfuel)
    as (c & m' & Head' & Hc & Hrm & Hl' & Hcase).
  exists c, m', Head'. split; [exact Hc|]. split; [exact Hrm|]. split; [exact Hl'|].
  destruct (last l1) as [pred|]; [|exact Hcase].
  destruct Hcase as (HH & _ & pc & Hpc & Hm'). split; [exact HH|].
  exists pc, (Access_setNext pc (Access_getNext c)).
  split; [exact Hpc|]. subst m'. split.
  - apply load_insert_eq. now apply load_Ok in Hpc.
  - split; [apply getNext_setNext, getNext_valid|].
    split; [reflexivity|]. split; [reflexivity|].
    split; [apply getAccessAction_setNext, getNext_valid|].
    intros p Hp. apply lookup_insert_ne. congruence.
Qed.

(** C9 (amended): on a well-formed set with at least one record,
    findParentAccess returns null when the record is the head, and the
    record's predecessor when the record is listed after the head. *)
Theorem C9_findParentAccess_nonempty fuel m Head h l child :
  is_list m Head (h :: l) ->
  (length (h :: l) <= fuel)%nat ->
  (child = h -> AccessSet_findParentAccess fuel m Head child = Ok 0) /\
  (forall l1 l2 pred, h :: l = l1 ++ child :: l2 -> last l1 = Some pred ->
     AccessSet_findParentAccess fuel m Head child = Ok pred).
Proof.
  intros Hl Hfuel.
  destruct (findParentAccess_spec fuel m Head h l child Hl Hfuel) as (H1 & _ & H3).
  split; assumption.
Qed.

(** C10: ending a tracked access (the buffer's Pointer is non-null and
    the buffer is on the thread's list) unlinks the buffer and writes
    nothing into it: its Pointer, PC and NextAndAction words are the
    ones it had, so its Pointer is still non-null. *)
Theorem C10_endAccess_keeps_buffer fuel rt l1 buffer l2 a :
  is_list (buffers rt) (tlsHead rt) (l1 ++ buffer :: l2) ->
  (length (l1 ++ buffer :: l2) <= fuel)%nat ->
  load (buffers rt) buffer = Ok a ->
  Pointer a <> 0 ->
  exists rt',
    swift_endAccess fuel rt buffer = Ok rt' /\
    is_list (buffers rt') (tlsHead rt') (l1 ++ l2) /\
    load (buffers rt') buffer = Ok a /\
    disableExclusivityChecking rt' = disableExclusivityChecking rt.
Proof.
  intros Hl Hfuel Ha Hp.
  destruct (remove_spec fuel _ _ l1 buffer l2 Hl Hfuel)
    as (c & m' & Head' & Hc & Hrm & Hl' & Hcase).
  exists (mkRuntime m' Head' (disableExclusivityChecking rt)).
  split; [|split; [exact Hl'|split; [|reflexivity]]].
  - unfold swift_endAccess. rewrite Ha. simpl.
    destruct (Z.eqb_spec (Pointer a) 0) as [|_]; [contradiction|].
    rewrite Hrm. reflexivity.
  - simpl. destruct (last l1) as [pred|].
    + destruct Hcase as (_ & Hne & pc & _ & ->).
      rewrite load_insert_ne; assumption.
    + destruct Hcase as (-> & _). exact Ha.
Qed.

End Removal.

(* ===================================================================== *)
(** ** Claims about the begin/end entry points *)
(* ===================================================================== *)

Section BeginEnd.
Context {abi : ExclusivityABI}.

(** The buffer after [access->Pointer = nullptr]. *)
Lemma clear_Pointer_Ok m access a :
  load m access = Ok a ->
  clear_Pointer m access
    = Ok (<[access := {| Pointer := 0; PC := PC a;
                         NextAndAction := NextAndAction a |}]> m).
Proof.
  intros H. unfold clear_Pointer. rewrite H. simpl. apply (store_Ok _ _ _ _ H).
Qed.

(** Clearing a Pointer field leaves every list as it was. *)
Lemma is_seg_clear_Pointer m access a p l q :
  load m access = Ok a ->
  is_seg m p l q ->
  is_seg (<[access := {| Pointer := 0; PC := PC a;
                         NextAndAction := NextAndAction a |}]> m) p l q.
Proof.
  intros Ha. apply is_seg_frame. intros b c _ Hb.
  destruct (Z.eq_dec access b) as [->|Hne].
  - rewrite Ha in Hb. inversion Hb; subst c.
    eexists. split; [apply load_insert_eq; now apply load_Ok in Ha | reflexivity].
  - exists c. split; [|reflexivity]. now rewrite load_insert_ne.
Qed.

Lemma endAccess_untracked fuel rt buffer a :
  load (buffers rt) buffer = Ok a -> Pointer a = 0 ->
  swift_endAccess fuel rt buffer = Ok rt.
Proof.
  intros Ha Hp. unfold swift_endAccess. rewrite Ha. simpl. now rewrite Hp.
Qed.

(** C7: with exclusivity checking disabled, begin_access nulls the
    buffer's Pointer and returns without looking at the access set
    (whatever the set holds and with no loop iteration available), and
    the matching end_access returns with the state as it found it. *)
Theorem C7_disabled_begin_end fuel fuel' ra rt pointer buffer flags pc a :
  disableExclusivityChecking rt = true ->
  pointer <> 0 ->
  load (buffers rt) buffer = Ok a ->
  let rt' :=
    mkRuntime (<[buffer := {| Pointer := 0; PC := PC a;
                              NextAndAction := NextAndAction a |}]> (buffers rt))
              (tlsHead rt) true in
  swift_beginAccess fuel ra rt pointer buffer flags pc = Ok rt' /\
  swift_endAccess fuel' rt' buffer = Ok rt'.
Proof.
  intros Hdis Hptr Ha rt'. split.
  - unfold swift_beginAccess.
    destruct (Z.eqb_spec pointer 0) as [|_]; [contradiction|]. simpl.
    rewrite assert_true. simpl. rewrite Hdis.
    rewrite (clear_Pointer_Ok _ _ _ Ha). reflexivity.
  - eapply endAccess_untracked;
      [simpl; apply load_insert_eq; now apply load_Ok in Ha | reflexivity].
Qed.

Context {laws : ExclusivityABILaws abi}.

(** C6: for flags that ask for no tracking, insert still scans: a
    conflicting record ends the call in the fatal report.  Without one,
    insert returns false and leaves memory and head alone; begin_access
    then nulls the buffer's Pointer, the thread's head and list are as
    before, and the matching end_access changes nothing. *)
Theorem C6_nontracked_begin_end fuel fuel' ra rt l pointer buffer flags pc a :
  is_list (buffers rt) (tlsHead rt) l -> (length l <= fuel)%nat ->
  disableExclusivityChecking rt = false ->
  pointer <> 0 ->
  isTracking flags = false ->
  load (buffers rt) buffer = Ok a ->
  let pc' := if pc =? 0 then ra else pc in
  ((exists b c, b ∈ l /\ load (buffers rt) b = Ok c /\
                conflicts pointer (getAccessAction flags) c) ->
   AccessSet_insert fuel (buffers rt) (tlsHead rt) buffer pc' pointer flags
     = Err Conflict /\
   swift_beginAccess fuel ra rt pointer buffer flags pc = Err Conflict)
  /\
  ((forall b c, b ∈ l -> load (buffers rt) b = Ok c ->
                ~ conflicts pointer (getAccessAction flags) c) ->
   let rt' :=
     mkRuntime (<[buffer := {| Pointer := 0; PC := PC a;
                               NextAndAction := NextAndAction a |}]> (buffers rt))
               (tlsHead rt) false in
   AccessSet_insert fuel (buffers rt) (tlsHead rt) buffer pc' pointer flags
     = Ok (buffers rt, tlsHead rt, false) /\
   swift_beginAccess fuel ra rt pointer buffer flags pc = Ok rt' /\
   is_list (buffers rt') (tlsHead rt') l /\
   swift_endAccess fuel' rt' buffer = Ok rt').
Proof.
  intros Hl Hfuel Hdis Hptr Htr Ha pc'.
  assert (Hbegin : swift_beginAccess fuel ra rt pointer buffer flags pc =
    do r <- AccessSet_insert fuel (buffers rt) (tlsHead rt) buffer pc' pointer flags;
    let '(m', head', inserted) := r in
    if negb inserted then
      do m'' <- clear_Pointer m' buffer;
      Ok (mkRuntime m'' head' (disableExclusivityChecking rt))
    else Ok (mkRuntime m' head' (disableExclusivityChecking rt))).
  { unfold swift_beginAccess.
    destruct (Z.eqb_spec pointer 0) as [|_]; [contradiction|]. simpl.
    rewrite assert_true. simpl. rewrite Hdis. reflexivity. }
  unfold AccessSet_insert in *.
  destruct (insert_scan_spec fuel _ _ l pointer (getAccessAction flags) Hl Hfuel)
    as [(He & b & c & Hin & Hc & Hp & Hn)|(He & Hall)].
  - split.
    + intros _. rewrite Hbegin, He. split; reflexivity.
    + intros Hnc. exfalso. apply (Hnc b c Hin Hc). split; [exact Hp|].
      now apply not_both_reads.
  - split.
    + intros (b & c & Hin & Hc & Hp & Hm). exfalso.
      apply not_both_reads in Hm. apply Hm. eapply Hall; eassumption.
    + intros _. rewrite Hbegin, He. simpl. rewrite Htr. simpl.
      split; [reflexivity|]. rewrite (clear_Pointer_Ok _ _ _ Ha). simpl.
      rewrite Hdis. split; [reflexivity|]. split.
      * now apply is_seg_clear_Pointer.
      * eapply endAccess_untracked;
          [simpl; apply load_insert_eq; now apply load_Ok in Ha | reflexivity].
Qed.

End BeginEnd.

(* ===================================================================== *)
(** ** Claims about the task push/pop protocol *)
(* ===================================================================== *)

Section Tasks.
Context {abi : ExclusivityABI}.

(** C3: push with a non-null T_begin over a non-null thread head.  The
    thread head becomes T_begin, the record at T_end gets the old head
    as its next link (its pointer, pc and action are kept), T_begin
    becomes the old head, T_end becomes null, and no other buffer is
    written. *)
Theorem C3_push_splice m Head taskCtx t :
  state0 taskCtx <> 0 -> Head <> 0 -> valid_ptr Head ->
  load m (state1 taskCtx) = Ok t ->
  let t' := Access_setNext t Head in
  let m' := <[state1 taskCtx := t']> m in
  swift_task_enterThreadLocalContext m Head taskCtx
    = Ok (m', state0 taskCtx, mkTaskCtx Head 0) /\
  load m' (state1 taskCtx) = Ok t' /\
  Access_getNext t' = Head /\
  Pointer t' = Pointer t /\ PC t' = PC t /\
  Access_getAccessAction t' = Access_getAccessAction t /\
  (forall p, p <> state1 taskCtx -> m' !! p = m !! p).
Proof.
  intros HTB HH Hv Ht t' m'.
  split; [|split; [|split; [|split; [|split; [|split]]]]].
  - unfold swift_task_enterThreadLocalContext, hasInitialAccessSet.
    destruct (Z.eqb_spec (state0 taskCtx) 0) as [|_]; [contradiction|].
    destruct (Z.eqb_spec Head 0) as [|_]; [contradiction|]. simpl.
    unfold getTaskAccessSetTail. rewrite Ht. simpl.
    rewrite (store_Ok _ _ _ _ Ht). reflexivity.
  - apply load_insert_eq. now apply load_Ok in Ht.
  - now apply getNext_setNext.
  - reflexivity.
  - reflexivity.
  - now apply getAccessAction_setNext.
  - intros p Hp. apply lookup_insert_ne. congruence.
Qed.

(** C4: pop with a non-null pivot in T_begin.  If the thread head is
    the pivot, nothing is written, the head stays and the task's two
    words become null.  If the pivot is listed after the head, the
    thread head becomes the pivot, the pivot's predecessor gets a null
    next link and becomes T_end, and T_begin becomes the old head: the
    task's span is the part of the list before the pivot, the thread
    keeps the part from the pivot on. *)
Theorem C4_pop_with_pivot fuel m Head taskCtx :
  state0 taskCtx <> 0 ->
  (Head = state0 taskCtx ->
   swift_task_exitThreadLocalContext fuel m Head taskCtx
     = Ok (m, Head, mkTaskCtx 0 0))
  /\
  (forall l1 l2 pred,
     is_list m Head (l1 ++ state0 taskCtx :: l2) ->
     last l1 = Some pred ->
     (length (l1 ++ state0 taskCtx :: l2) <= fuel)%nat ->
     Head <> state0 taskCtx /\
     AccessSet_findParentAccess fuel m Head (state0 taskCtx) = Ok pred /\
     exists pc,
       load m pred = Ok pc /\
       let m' := <[pred := Access_setNext pc 0]> m in
       swift_task_exitThreadLocalContext fuel m Head taskCtx
         = Ok (m', state0 taskCtx, mkTaskCtx Head pred) /\
       Access_getNext (Access_setNext pc 0) = 0 /\
       (forall p, p <> pred -> m' !! p = m !! p) /\
       is_span m' (mkTaskCtx Head pred) l1 /\
       is_list m' (state0 taskCtx) (state0 taskCtx :: l2)).
Proof.
  intros HTB. split.
  - intros ->. unfold swift_task_exitThreadLocalContext, getTaskAccessSetHead.
    destruct (Z.eqb_spec (state0 taskCtx) 0) as [|_]; [contradiction|].
    now rewrite Z.eqb_refl.
  - intros l1 l2 pred Hl Hlast Hfuel.
    pose proof (is_list_NoDup _ _ _ Hl) as Hnd.
    destruct l1 as [|h l1']; [discriminate|].
    pose proof (is_seg_head _ _ _ _ _ Hl) as [-> Hh0].
    apply NoDup_app in Hnd as (Hnd1 & Hdisj & Hnd2).
    assert (Hne : h <> state0 taskCtx).
    { intros Heq. apply (Hdisj h); [left | rewrite Heq; left]. }
    split; [exact Hne|].
    assert (Hfp : AccessSet_findParentAccess fuel m h (state0 taskCtx) = Ok pred).
    { destruct (findParentAccess_spec fuel m h h (l1' ++ state0 taskCtx :: l2)
                  (state0 taskCtx) Hl Hfuel) as (_ & _ & H3).
      apply (H3 (h :: l1') l2 pred); [reflexivity | exact Hlast]. }
    split; [exact Hfp|].
    assert (Hpin : pred ∈ h :: l1') by (apply last_Some_elem_of; exact Hlast).
    destruct (is_seg_elem_load m h ((h :: l1') ++ state0 taskCtx :: l2) 0 pred Hl)
      as (pc & Hpc); [apply elem_of_app; now left|].
    exists pc. split; [exact Hpc|]. intros m'.
    split; [|split; [|split; [|split]]].
    + unfold swift_task_exitThreadLocalContext, getTaskAccessSetHead.
      destruct (Z.eqb_spec (state0 taskCtx) 0) as [|_]; [contradiction|].
      destruct (Z.eqb_spec h (state0 taskCtx)) as [|_]; [contradiction|].
      rewrite Hfp. simpl. rewrite Hpc. simpl.
      rewrite (store_Ok _ _ _ _ Hpc). reflexivity.
    + apply getNext_setNext, valid_ptr_0.
    + intros p Hp. apply lookup_insert_ne. congruence.
    + pose proof Hl as Hsplit. unfold is_list in Hsplit.
      apply is_seg_app in Hsplit as (r & H1 & H2).
      pose proof (is_seg_head _ _ _ _ _ H2) as [-> _].
      pose proof Hlast as Hsn. apply last_Some in Hsn as (l0 & Hl0).
      unfold is_span. simpl state0. simpl state1. rewrite Hlast.
      split; [|reflexivity]. rewrite Hl0 in *.
      apply is_seg_app in H1 as (r & H0 & (-> & _)).
      unfold is_list. unfold m'.
      apply (is_seg_relink m h l0 pred pc 0 [] 0); try assumption.
      * reflexivity.
      * apply valid_ptr_0.
    + pose proof Hl as Hsplit. unfold is_list in Hsplit.
      apply is_seg_app in Hsplit as (r & _ & H2).
      pose proof (is_seg_head _ _ _ _ _ H2) as [-> _].
      unfold is_list, m'. apply is_seg_insert_notin; [|exact H2].
      apply Hdisj. exact Hpin.
Qed.

(** C1: from a well-formed situation (the thread's list, the suspended
    task's saved span, sharing no record), push immediately followed by
    pop returns normally and gives back the memory, the thread head and
    the task's two words exactly as they were before the push; this
    covers the four push cases, each followed by the pop it leads to. *)
Theorem C1_push_pop_restores fuel m Head ls taskCtx lt :
  is_list m Head ls ->
  is_span m taskCtx lt ->
  (forall a, a ∈ lt -> a ∉ ls) ->
  valid_ptr Head ->
  (forall e, load m (state1 taskCtx) = Ok e ->
             0 <= NextAndAction e < uintptr_modulus) ->
  (length (lt ++ ls) <= fuel)%nat ->
  exists m1 Head1 taskCtx1,
    swift_task_enterThreadLocalContext m Head taskCtx = Ok (m1, Head1, taskCtx1) /\
    swift_task_exitThreadLocalContext fuel m1 Head1 taskCtx1
      = Ok (m, Head, taskCtx).
Proof.
  intros Hls [Hlt Hend] Hdisj Hv Hword Hfuel.
  destruct taskCtx as [TB TE]. simpl in *.
  unfold swift_task_enterThreadLocalContext, swift_task_exitThreadLocalContext,
    hasInitialAccessSet, getTaskAccessSetHead, getTaskAccessSetTail,
    setTaskAccessSetHead, setTaskAccessSetTail. simpl.
  destruct lt as [|tb lt'].
  - (* the task holds no accesses: push cases 1-4 *)
    apply is_list_nil in Hlt. simpl in Hend. subst TB TE. simpl.
    destruct (Z.eqb_spec Head 0) as [->|HH].
    + eexists _, _, _. split; [reflexivity|]. simpl.
      rewrite assert_true. reflexivity.
    + eexists _, _, _. split; [reflexivity|]. simpl.
      destruct (Z.eqb_spec Head 0) as [|_]; [contradiction|].
      now rewrite Z.eqb_refl.
  - (* the task holds accesses: push cases 5-8 *)
    pose proof (is_seg_head _ _ _ _ _ Hlt) as [-> Htb].
    destruct (Z.eqb_spec tb 0) as [|_]; [contradiction|]. simpl.
    destruct (last (tb :: lt')) as [te|] eqn:Hlast;
      [|apply last_None in Hlast; discriminate].
    subst TE.
    destruct (Z.eqb_spec Head 0) as [->|HH].
    + eexists _, _, _. split; [reflexivity|]. simpl.
      destruct (Z.eqb_spec tb 0) as [|_]; [contradiction|].
      rewrite (getTail_spec fuel m tb (tb :: lt') te Hlt Hlast).
      2:{ rewrite length_app in Hfuel. lia. }
      simpl.
      assert (Hte : te <> 0).
      { apply last_Some_elem_of in Hlast.
        destruct (is_seg_elem_load _ _ _ _ _ Hlt Hlast) as (c & Hc).
        now apply load_Ok in Hc. }
      destruct (Z.eqb_spec te 0) as [|_]; [contradiction|]. simpl.
      rewrite assert_true. reflexivity.
    + destruct ls as [|h ls']; [apply is_list_nil in Hls; contradiction|].
      pose proof (is_seg_head _ _ _ _ _ Hls) as [-> _].
      pose proof Hlast as Hsn. apply last_Some in Hsn as (l0 & Hl0).
      pose proof Hlt as Hlt0. rewrite Hl0 in Hlt0. unfold is_list in Hlt0.
      apply is_seg_snoc in Hlt0 as (Hs0 & c & Hc & Hcn).
      rewrite Hc. simpl. rewrite (store_Ok _ _ _ _ Hc). simpl.
      eexists _, _, _. split; [reflexivity|]. simpl.
      destruct (Z.eqb_spec h 0) as [|_]; [contradiction|].
      assert (Htbh : tb <> h).
      { intros ->. apply (Hdisj h); left. }
      destruct (Z.eqb_spec tb h) as [|_]; [contradiction|].
      set (m1 := <[te := Access_setNext c h]> m).
      assert (Hnd : NoDup (l0 ++ te :: h :: ls')).
      { replace (l0 ++ te :: h :: ls') with ((tb :: lt') ++ h :: ls')
          by (rewrite Hl0, <- app_assoc; reflexivity).
        apply NoDup_app. split; [eapply is_list_NoDup; exact Hlt|].
        split; [exact Hdisj | eapply is_list_NoDup; exact Hls]. }
      assert (Hl1 : is_list m1 tb ((tb :: lt') ++ h :: ls')).
      { rewrite Hl0, <- app_assoc. simpl.
        apply is_seg_relink; assumption. }
      destruct (findParentAccess_spec fuel m1 tb tb (lt' ++ h :: ls') h Hl1 Hfuel)
        as (_ & _ & H3).
      rewrite (H3 (tb :: lt') ls' te eq_refl Hlast). simpl.
      assert (Hte : te <> 0) by now apply load_Ok in Hc.
      unfold m1 at 1. rewrite (load_insert_eq _ _ _ Hte). simpl.
      unfold store. unfold m1 at 1. rewrite (load_insert_eq _ _ _ Hte). simpl.
      unfold m1. rewrite insert_insert_eq.
      rewrite setNext_setNext by exact Hv.
      rewrite setNext_null_id; [| apply Hword; exact Hc | exact Hcn].
      rewrite insert_id; [reflexivity|]. now apply load_Ok in Hc.
Qed.

End Tasks.

(* ===================================================================== *)
(** ** The claims on the example heap *)
(* ===================================================================== *)

Lemma abi_one_bit_laws ndebug : ExclusivityABILaws (abi_one_bit ndebug).
Proof.
  split; unfold abi_one_bit; simpl.
  - intros flags. now rewrite <- Z.land_assoc.
  - intros w. change (Z.land w 1) with (Z.land w (Z.ones 1)).
    rewrite Z.land_ones by lia. change (2 ^ 1) with 2.
    pose proof (Z.mod_pos_bound w 2 eq_refl). lia.
  - discriminate.
Qed.

#[local] Existing Instance ex_abi.
#[local] Existing Instance abi_one_bit_laws.

Ltac walk_list :=
  repeat first
    [ reflexivity
    | split; [reflexivity|]
    | eexists; split; [vm_compute; reflexivity|] ].

Lemma ex_thread_list : is_list ex_mem 32 [32; 16].
Proof. unfold is_list. simpl. walk_list. Qed.

Lemma ex_task_list : is_list ex_mem 64 [64; 80].
Proof. unfold is_list. simpl. walk_list. Qed.

Lemma ex_valid_32 : valid_ptr 32.
Proof. split; [vm_compute; split; [discriminate | reflexivity] | reflexivity]. Qed.

Lemma ex_disjoint : forall a : Z, a ∈ [64; 80] -> a ∉ [32; 16].
Proof.
  intros a Ha Hb. apply list_elem_of_In in Ha, Hb. simpl in Ha, Hb. lia.
Qed.

Lemma ex_no_conflict_read_0x1000 :
  forall a c, a ∈ [32; 16] -> load ex_mem a = Ok c ->
    ~ conflicts 4096 (getAccessAction 32) c.
Proof.
  intros a c Ha Hc [Hp Hm]. apply list_elem_of_In in Ha. simpl in Ha.
  destruct Ha as [<-|[<-|[]]]; vm_compute in Hc; inversion Hc; subst c;
    vm_compute in Hp, Hm; [discriminate|].
  destruct Hm; discriminate.
Qed.

Lemma C1_push_pop_restores_witness :
  exists m1 Head1 taskCtx1,
    swift_task_enterThreadLocalContext ex_mem 32 ex_task
      = Ok (m1, Head1, taskCtx1) /\
    swift_task_exitThreadLocalContext 4 m1 Head1 taskCtx1
      = Ok (ex_mem, 32, ex_task).
Proof.
  apply (C1_push_pop_restores 4 ex_mem 32 [32; 16] ex_task [64; 80]).
  - exact ex_thread_list.
  - split; [exact ex_task_list | reflexivity].
  - exact ex_disjoint.
  - exact ex_valid_32.
  - intros e He. vm_compute in He. inversion He. vm_compute. split; discriminate || reflexivity.
  - simpl. lia.
Defined.

Lemma C2_insert_conflict_iff_witness :
  (AccessSet_insert 2 ex_mem 32 48 9 4096 1 = Err Conflict <->
   exists a c, a ∈ [32; 16] /\ load ex_mem a = Ok c /\
               conflicts 4096
                 (getAccessAction 1) c)
  /\
  (getAccessAction 1 = Read ->
   (forall a c, a ∈ [32; 16] -> load ex_mem a = Ok c ->
                Pointer c = 4096 ->
                Access_getAccessAction c
                  = Read) ->
   AccessSet_insert 2 ex_mem 32 48 9 4096 1 <> Err Conflict).
Proof.
  apply (C2_insert_conflict_iff
           2 ex_mem 32 [32; 16] 48 9 4096 1).
  - exact ex_thread_list.
  - simpl. lia.
Defined.

Lemma C3_push_splice_witness :
  swift_task_enterThreadLocalContext ex_mem 32 ex_task
    = Ok (<[80 := Access_setNext ex_T2 32]> ex_mem, 64, mkTaskCtx 32 0)
  /\ Access_getNext (Access_setNext ex_T2 32) = 32.
Proof.
  destruct (C3_push_splice ex_mem 32 ex_task ex_T2)
    as (H1 & _ & H2 & _).
  - simpl. lia.
  - lia.
  - exact ex_valid_32.
  - reflexivity.
  - split; [exact H1 | exact H2].
Defined.

Lemma C4_pop_with_pivot_witness :
  swift_task_exitThreadLocalContext 2 ex_mem 32 (mkTaskCtx 16 0)
    = Ok (<[32 := Access_setNext ex_R2 0]> ex_mem, 16, mkTaskCtx 32 32)
  /\
  swift_task_exitThreadLocalContext 2 ex_mem 16 (mkTaskCtx 16 0)
    = Ok (ex_mem, 16, mkTaskCtx 0 0).
Proof.
  split.
  - destruct (C4_pop_with_pivot 2 ex_mem 32 (mkTaskCtx 16 0))
      as [_ H]; [simpl; lia|].
    destruct (H [32] [] 32) as (_ & _ & pc & Hpc & Hexit & _).
    + exact ex_thread_list.
    + reflexivity.
    + simpl. lia.
    + vm_compute in Hpc. inversion Hpc; subst pc. exact Hexit.
  - destruct (C4_pop_with_pivot 2 ex_mem 16 (mkTaskCtx 16 0))
      as [H _]; [simpl; lia|].
    apply H. reflexivity.
Defined.

Lemma C5_insert_tracked_witness :
  AccessSet_insert 2 ex_mem 32 48 9 4096 32
    = Ok (<[48 := Access_initialize 9 4096 32 0]> ex_mem, 48, true)
  /\ is_list
       (<[48 := Access_initialize 9 4096 32 0]> ex_mem) 48 [48; 32; 16].
Proof.
  destruct (C5_insert_tracked
              2 ex_mem 32 [32; 16] 48 ex_scratch 9 4096 32)
    as (H1 & _ & _ & _ & _ & H2 & _).
  - exact ex_thread_list.
  - simpl. lia.
  - exact ex_valid_32.
  - reflexivity.
  - reflexivity.
  - intros Hin. apply list_elem_of_In in Hin. simpl in Hin. lia.
  - exact ex_no_conflict_read_0x1000.
  - split; [exact H1 | exact H2].
Defined.

Lemma ex_no_conflict_untracked_read :
  forall b c, b ∈ [32; 16] -> load ex_mem b = Ok c ->
    ~ conflicts 4096 (getAccessAction 0) c.
Proof.
  intros a c Ha Hc [Hp Hm]. apply list_elem_of_In in Ha. simpl in Ha.
  destruct Ha as [<-|[<-|[]]]; vm_compute in Hc; inversion Hc; subst c;
    vm_compute in Hp, Hm; [discriminate|].
  destruct Hm; discriminate.
Qed.

Lemma C6_nontracked_begin_end_witness :
  let rt' := mkRuntime (<[48 := mkAccess 0 7 7]> ex_mem) 32 false in
  swift_beginAccess 2 4660 (ex_rt false) 4096 48 0 0 = Ok rt' /\
  is_list (buffers rt') (tlsHead rt') [32; 16] /\
  swift_endAccess 2 rt' 48 = Ok rt' /\
  swift_beginAccess 2 4660 (ex_rt false) 4096 48 1 0 = Err Conflict.
Proof.
  destruct (C6_nontracked_begin_end 2 2 4660 (ex_rt false) [32; 16] 4096 48 0 0
              ex_scratch) as [_ Hno].
  - exact ex_thread_list.
  - simpl. lia.
  - reflexivity.
  - lia.
  - reflexivity.
  - reflexivity.
  - destruct (Hno ex_no_conflict_untracked_read) as (_ & Hb & Hl & He).
    destruct (C6_nontracked_begin_end 2 2 4660 (ex_rt false) [32; 16] 4096 48 1 0
                ex_scratch) as [Hyes _].
    + exact ex_thread_list.
    + simpl. lia.
    + reflexivity.
    + lia.
    + reflexivity.
    + reflexivity.
    + destruct Hyes as [_ Hc].
      * exists 16, ex_R1. split; [now right; left|].
        split; [reflexivity|]. split; [reflexivity|]. left. reflexivity.
      * intros rt'. split; [exact Hb|]. split; [exact Hl|].
        split; [exact He | exact Hc].
Defined.

Lemma C7_disabled_begin_end_witness :
  let rt' := mkRuntime (<[48 := mkAccess 0 7 7]> ex_mem) 32 true in
  swift_beginAccess 0 4660 (ex_rt true) 4096 48 33 0 = Ok rt' /\
  swift_endAccess 0 rt' 48 = Ok rt'.
Proof.
  apply (C7_disabled_begin_end 0 0 4660 (ex_rt true) 4096 48 33 0 ex_scratch).
  - reflexivity.
  - lia.
  - reflexivity.
Defined.

Lemma C8_remove_unlinks_witness :
  exists c m' Head',
    load ex_mem 16 = Ok c /\
    AccessSet_remove 2 ex_mem 32 16 = Ok (m', Head') /\
    is_list m' Head' [32] /\
    Head' = 32 /\
    exists pc pc',
      load ex_mem 32 = Ok pc /\ load m' 32 = Ok pc' /\
      Access_getNext pc' = Access_getNext c /\
      Pointer pc' = Pointer pc /\ PC pc' = PC pc /\
      Access_getAccessAction pc' = Access_getAccessAction pc /\
      forall p, p <> 32 -> m' !! p = ex_mem !! p.
Proof.
  apply (C8_remove_unlinks 2 ex_mem 32 [32] 16 []).
  - exact ex_thread_list.
  - simpl. lia.
Defined.

Lemma C9_findParentAccess_nonempty_witness :
  AccessSet_findParentAccess 2 ex_mem 32 32 = Ok 0 /\
  AccessSet_findParentAccess 2 ex_mem 32 16 = Ok 32.
Proof.
  split.
  - destruct (C9_findParentAccess_nonempty 2 ex_mem 32 32 [16] 32) as [H _].
    + exact ex_thread_list.
    + simpl. lia.
    + apply H. reflexivity.
  - destruct (C9_findParentAccess_nonempty 2 ex_mem 32 32 [16] 16) as [_ H].
    + exact ex_thread_list.
    + simpl. lia.
    + apply (H [32] [] 32); reflexivity.
Defined.

(** C9 as stated fails on the empty set: with a null head the first
    step [Head->getNext()] reads through the null pointer, in a release
    build as in an asserts build, so no value is returned. *)
Lemma C9_counterexample_empty_set :
  is_list (abi := abi_one_bit true) ∅ 0 [] /\
  AccessSet_findParentAccess (abi := abi_one_bit true) 8 ∅ 0 16 = Err BadPointer /\
  AccessSet_findParentAccess (abi := abi_one_bit false) 8 ∅ 0 16 = Err BadPointer.
Proof. split; [reflexivity | split; reflexivity]. Qed.

Lemma C10_endAccess_keeps_buffer_witness :
  exists rt',
    swift_endAccess 2 (ex_rt false) 16 = Ok rt' /\
    is_list (buffers rt') (tlsHead rt') [32] /\
    load (buffers rt') 16 = Ok ex_R1 /\
    disableExclusivityChecking rt' = false.
Proof.
  apply (C10_endAccess_keeps_buffer 2 (ex_rt false) [32] 16 [] ex_R1).
  - exact ex_thread_list.
  - simpl. lia.
  - reflexivity.
  - simpl. lia.
Defined.

(* ===================================================================== *)
(** ** Further properties: the packed word *)
(* ===================================================================== *)

Section PackedWord.
Context {abi : ExclusivityABI}.

(** Relinking a record to the successor it already has changes nothing. *)
Lemma setNext_getNext_id a :
  0 <= NextAndAction a < uintptr_modulus ->
  Access_setNext a (Access_getNext a) = a.
Proof.
  intros Hr. destruct a as [p pc w]. unfold Access_setNext, Access_getNext.
  simpl in *. f_equal. apply Z.bits_inj'. intros n Hn.
  rewrite Z.lor_spec, !Z.land_spec, NextMask_testbit by assumption.
  destruct (Z.ltb_spec n uintptr_bits) as [Hlt|Hhi].
  - destruct (Z.testbit w n), (Z.testbit ActionMask n); reflexivity.
  - rewrite (in_range_testbit w n Hr Hhi). reflexivity.
Qed.

(** X1: a link written with setNext is read back by getNext exactly
    when the pointer is in range and has its action bits clear. *)
Theorem X1_setNext_getNext_iff a p :
  Access_getNext (Access_setNext a p) = p <-> valid_ptr p.
Proof.
  split.
  - intros <-. apply getNext_valid.
  - apply getNext_setNext.
Qed.

(** X2: setNext never touches Pointer and PC; the action read back
    afterwards is the old action or-ed with the action bits of the new
    pointer, so it is the old action when those bits are clear. *)
Theorem X2_setNext_fields a p :
  Pointer (Access_setNext a p) = Pointer a /\
  PC (Access_setNext a p) = PC a /\
  Access_getAccessAction (Access_setNext a p)
    = Z.lor (Z.land p ActionMask) (Access_getAccessAction a) /\
  (Z.land p ActionMask = 0 ->
   Access_getAccessAction (Access_setNext a p) = Access_getAccessAction a).
Proof.
  assert (He : Access_getAccessAction (Access_setNext a p)
               = Z.lor (Z.land p ActionMask) (Access_getAccessAction a)).
  { unfold Access_getAccessAction, Access_setNext. simpl.
    now rewrite Z.land_lor_distr_l, land_mask_idem. }
  split; [reflexivity|]. split; [reflexivity|]. split; [exact He|].
  intros H0. rewrite He, H0. apply Z.lor_0_l.
Qed.

(** X3: a record built by initialize from an aligned next pointer and
    an action that fits in the action bits gives back all four inputs. *)
Theorem X3_initialize_reads_back pc pointer next action :
  valid_ptr next -> Z.land action ActionMask = action ->
  let a := Access_initialize pc pointer next action in
  Pointer a = pointer /\ PC a = pc /\
  Access_getNext a = next /\ Access_getAccessAction a = action.
Proof.
  intros Hv Ha a. split; [reflexivity|]. split; [reflexivity|]. split.
  - now apply getNext_initialize.
  - now apply getAccessAction_initialize.
Qed.

(** X4: whatever word a record holds, the link read from it is a
    pointer in range whose action bits are clear, and link and action
    together are the whole word when the word is a uintptr_t. *)
Theorem X4_getNext_action_partition a :
  valid_ptr (Access_getNext a) /\
  Z.land (Access_getNext a) (Access_getAccessAction a) = 0 /\
  (0 <= NextAndAction a < uintptr_modulus ->
   Z.lor (Access_getNext a) (Access_getAccessAction a) = NextAndAction a).
Proof.
  split; [apply getNext_valid|]. split.
  - destruct (getNext_valid a) as [_ Hal]. unfold Access_getAccessAction.
    rewrite (Z.land_comm (NextAndAction a)), Z.land_assoc, Hal.
    apply Z.land_0_l.
  - intros Hr. pose proof (setNext_getNext_id a Hr) as Hid.
    apply (f_equal NextAndAction) in Hid. exact Hid.
Qed.

End PackedWord.

(* ===================================================================== *)
(** ** Further properties: lookups and removal at the edges *)
(* ===================================================================== *)

Section Edges.
Context {abi : ExclusivityABI}.

Lemma is_list_head_eq m m' p p' l : is_list m p l -> is_list m' p' l -> p = p'.
Proof.
  destruct l as [|a l]; simpl.
  - intros -> ->. reflexivity.
  - intros (-> & _) (-> & _). reflexivity.
Qed.

(** X5: getTail returns null on the empty set and the last record of
    the list otherwise. *)
Theorem X5_getTail_last fuel m Head l :
  is_list m Head l -> (length l <= fuel)%nat ->
  AccessSet_getTail fuel m Head = Ok (default 0 (last l)).
Proof.
  intros Hl Hfuel. destruct (last l) as [e|] eqn:Hlast.
  - simpl. eapply getTail_spec; eassumption.
  - apply last_None in Hlast. subst l. apply is_list_nil in Hl. subst Head.
    reflexivity.
Qed.

(** X6: on a non-empty set findParentAccess returns null exactly when
    the record is the head or is not listed at all, so a null result
    does not tell the two apart. *)
Theorem X6_findParentAccess_null_iff fuel m Head h l child :
  is_list m Head (h :: l) -> (length (h :: l) <= fuel)%nat ->
  (AccessSet_findParentAccess fuel m Head child = Ok 0 <->
   child = h \/ child ∉ h :: l).
Proof.
  intros Hl Hfuel.
  destruct (findParentAccess_spec fuel m Head h l child Hl Hfuel) as (H1 & H2 & H3).
  split.
  - intros Hres. destruct (decide (child = h)) as [|Hne]; [now left|].
    destruct (decide (child ∈ h :: l)) as [Hin|]; [|now right].
    exfalso. apply list_elem_of_split in Hin as (l1 & l2 & Heq).
    destruct l1 as [|x l1]; [simpl in Heq; congruence|].
    destruct (last (x :: l1)) as [pred|] eqn:Hlast;
      [|apply last_None in Hlast; discriminate].
    rewrite (H3 _ _ _ Heq Hlast) in Hres. inversion Hres; subst pred.
    apply last_Some_elem_of in Hlast.
    assert (Hin0 : 0 ∈ h :: l) by (rewrite Heq; apply elem_of_app; now left).
    destruct (is_seg_elem_load _ _ _ _ _ Hl Hin0) as (c & Hc).
    rewrite load_null in Hc. discriminate.
  - intros [Heq|Hnotin]; [now apply H1 | now apply H2].
Qed.

Lemma remove_walk_absent l : forall fuel m prev lc access,
  load m prev = Ok lc ->
  is_list m (Access_getNext lc) l ->
  access ∉ l ->
  (length l <= fuel)%nat ->
  remove_walk fuel m prev (Access_getNext lc) access = Err Unreachable.
Proof.
  induction l as [|a l IH]; intros fuel m prev lc access Hprev Hl Hnotin Hfuel.
  - apply is_list_nil in Hl. rewrite Hl. destruct fuel; reflexivity.
  - destruct fuel as [|fuel]; [simpl in Hfuel; lia|].
    destruct Hl as (Ha & ca & Hca & Hl).
    assert (Hne : a <> access) by (intros ->; apply Hnotin; left).
    assert (Hnotin' : access ∉ l) by (intros Hin; apply Hnotin; now right).
    simpl. rewrite (walk_check_ok _ _ _ Hprev). rewrite Ha.
    rewrite (load_nonnull _ _ _ Hca). simpl.
    destruct (Z.eqb_spec a access) as [|_]; [contradiction|].
    rewrite Hca. simpl. apply (IH fuel m a ca access); try assumption.
    simpl in Hfuel. lia.
Qed.

Lemma remove_empty fuel m access :
  AccessSet_remove fuel m 0 access =
  Err (if NDEBUG then BadPointer else AssertionFailed).
Proof.
  unfold AccessSet_remove, assert. simpl.
  destruct NDEBUG; simpl; [|reflexivity].
  destruct access; reflexivity.
Qed.

Lemma remove_absent_nonempty fuel m Head h l access :
  is_list m Head (h :: l) -> access ∉ h :: l -> (length (h :: l) <= fuel)%nat ->
  AccessSet_remove fuel m Head access = Err Unreachable.
Proof.
  intros Hl Hnotin Hfuel. unfold AccessSet_remove.
  destruct Hl as (-> & ch & Hch & Hl).
  rewrite (load_nonnull _ _ _ Hch). simpl. rewrite assert_true. simpl.
  assert (Hne : h <> access) by (intros ->; apply Hnotin; left).
  destruct (Z.eqb_spec h access) as [|_]; [contradiction|].
  rewrite Hch. simpl.
  rewrite (remove_walk_absent l fuel m h ch access Hch Hl); [reflexivity| |].
  - intros Hin. apply Hnotin. now right.
  - simpl in Hfuel. lia.
Qed.

(** X7: removing a record that is not on a well-formed set never
    returns: on a non-empty set the walk ends in the unreachable
    "access not found in set"; on the empty set an asserts build stops
    at "removal from empty AccessSet" and a release build reads through
    the null head.  Memory is not written in any of these cases. *)
Theorem X7_remove_absent fuel m Head l access :
  is_list m Head l -> access ∉ l -> (length l <= fuel)%nat ->
  AccessSet_remove fuel m Head access =
  Err (match l with
       | [] => if NDEBUG then BadPointer else AssertionFailed
       | _ :: _ => Unreachable
       end).
Proof.
  intros Hl Hnotin Hfuel. destruct l as [|h l].
  - apply is_list_nil in Hl. subst Head. apply remove_empty.
  - eapply remove_absent_nonempty; eassumption.
Qed.

(** X8: ending the same tracked access twice is caught: the first
    end_access unlinks the buffer but leaves its Pointer non-null, so
    the second one looks for the buffer again and does not return. *)
Theorem X8_double_endAccess fuel rt l1 buffer l2 a :
  is_list (buffers rt) (tlsHead rt) (l1 ++ buffer :: l2) ->
  (length (l1 ++ buffer :: l2) <= fuel)%nat ->
  load (buffers rt) buffer = Ok a ->
  Pointer a <> 0 ->
  exists rt',
    swift_endAccess fuel rt buffer = Ok rt' /\
    swift_endAccess fuel rt' buffer =
    Err (match l1 ++ l2 with
         | [] => if NDEBUG then BadPointer else AssertionFailed
         | _ :: _ => Unreachable
         end).
Proof.
  intros Hl Hfuel Ha Hp.
  pose proof (is_list_NoDup _ _ _ Hl) as Hnd.
  destruct (remove_spec fuel _ _ l1 buffer l2 Hl Hfuel)
    as (c & m' & Head' & Hc & Hrm & Hl' & Hcase).
  exists (mkRuntime m' Head' (disableExclusivityChecking rt)). split.
  - unfold swift_endAccess. rewrite Ha. simpl.
    destruct (Z.eqb_spec (Pointer a) 0) as [|_]; [contradiction|].
    rewrite Hrm. reflexivity.
  - assert (Ha' : load m' buffer = Ok a).
    { destruct (last l1) as [pred|].
      - destruct Hcase as (_ & Hne & pc & _ & ->).
        rewrite load_insert_ne; assumption.
      - destruct Hcase as (-> & _). exact Ha. }
    unfold swift_endAccess. simpl. rewrite Ha'. simpl.
    destruct (Z.eqb_spec (Pointer a) 0) as [|_]; [contradiction|].
    assert (Hnotin : buffer ∉ l1 ++ l2).
    { apply NoDup_app in Hnd as (_ & Hdisj & Hnd2).
      apply NoDup_cons in Hnd2 as (Hb2 & _).
      intros Hin. apply elem_of_app in Hin as [Hin|Hin]; [|contradiction].
      apply (Hdisj _ Hin). left. }
    assert (Hfuel' : (length (l1 ++ l2) <= fuel)%nat)
      by (rewrite length_app in *; simpl in Hfuel; lia).
    destruct (l1 ++ l2) as [|h l] eqn:Hrest.
    + apply is_list_nil in Hl'. subst Head'. rewrite remove_empty. reflexivity.
    + rewrite (remove_absent_nonempty fuel m' Head' h l buffer Hl' Hnotin Hfuel').
      reflexivity.
Qed.

End Edges.

(* ===================================================================== *)
(** ** Further properties: begin/end calls and runs of them *)
(* ===================================================================== *)

Section Bracketing.
Context {abi : ExclusivityABI} {laws : ExclusivityABILaws abi}.

Lemma pointer_at_load m a c : load m a = Ok c -> pointer_at m a = Pointer c.
Proof. intros H. apply load_Ok in H as [_ H]. unfold pointer_at. now rewrite H. Qed.

(** A tracked begin_access that meets no conflict. *)
Lemma beginAccess_tracked_spec fuel ra rt l pointer buffer flags pc old :
  is_list (buffers rt) (tlsHead rt) l -> (length l <= fuel)%nat ->
  valid_ptr (tlsHead rt) ->
  disableExclusivityChecking rt = false ->
  pointer <> 0 ->
  isTracking flags = true ->
  load (buffers rt) buffer = Ok old -> buffer ∉ l ->
  (forall a c, a ∈ l -> load (buffers rt) a = Ok c ->
               ~ conflicts pointer (getAccessAction flags) c) ->
  let r := Access_initialize (if pc =? 0 then ra else pc) pointer (tlsHead rt)
             (getAccessAction flags) in
  swift_beginAccess fuel ra rt pointer buffer flags pc
    = Ok (mkRuntime (<[buffer := r]> (buffers rt)) buffer false) /\
  Access_getNext r = tlsHead rt /\
  is_list (<[buffer := r]> (buffers rt)) buffer (buffer :: l).
Proof.
  intros Hl Hfuel Hv Hdis Hptr Htr Hold Hnotin Hnc r.
  assert (Hnext : Access_getNext r = tlsHead rt)
    by (apply getNext_initialize; [exact Hv | apply action_in_mask]).
  split; [|split; [exact Hnext|]].
  - unfold swift_beginAccess.
    destruct (Z.eqb_spec pointer 0) as [|_]; [contradiction|]. simpl.
    rewrite assert_true. simpl. rewrite Hdis. unfold AccessSet_insert.
    destruct (insert_scan_spec fuel _ _ l pointer (getAccessAction flags) Hl Hfuel)
      as [(He & a & c & Hin & Hc & Hp & Hn)|(He & Hall)].
    + exfalso. apply (Hnc a c Hin Hc). split; [exact Hp|]. now apply not_both_reads.
    + rewrite He. simpl. rewrite Htr. simpl.
      rewrite (store_Ok _ _ _ _ Hold). reflexivity.
  - split; [reflexivity|]. exists r. split.
    + apply load_insert_eq. now apply load_Ok in Hold.
    + rewrite Hnext. apply is_seg_insert_notin; assumption.
Qed.

(** X9: a tracked, conflict-free begin_access makes the buffer the
    head of the thread's list, in front of the old list, and the PC it
    records is the caller's pc, or the return address when the caller
    passed a null pc. *)
Theorem X9_beginAccess_tracked fuel ra rt l pointer buffer flags pc old :
  is_list (buffers rt) (tlsHead rt) l -> (length l <= fuel)%nat ->
  valid_ptr (tlsHead rt) ->
  disableExclusivityChecking rt = false ->
  pointer <> 0 ->
  isTracking flags = true ->
  load (buffers rt) buffer = Ok old -> buffer ∉ l ->
  (forall a c, a ∈ l -> load (buffers rt) a = Ok c ->
               ~ conflicts pointer (getAccessAction flags) c) ->
  exists rt' r,
    swift_beginAccess fuel ra rt pointer buffer flags pc = Ok rt' /\
    tlsHead rt' = buffer /\
    is_list (buffers rt') (tlsHead rt') (buffer :: l) /\
    load (buffers rt') buffer = Ok r /\
    Pointer r = pointer /\
    PC r = (if pc =? 0 then ra else pc) /\
    Access_getAccessAction r = getAccessAction flags /\
    (forall p, p <> buffer -> buffers rt' !! p = buffers rt !! p).
Proof.
  intros Hl Hfuel Hv Hdis Hptr Htr Hold Hnotin Hnc.
  destruct (beginAccess_tracked_spec fuel ra rt l pointer buffer flags pc old
              Hl Hfuel Hv Hdis Hptr Htr Hold Hnotin Hnc) as (Hb & Hn & Hl').
  eexists _, _. split; [exact Hb|]. simpl.
  split; [reflexivity|]. split; [exact Hl'|]. split.
  - apply load_insert_eq. now apply load_Ok in Hold.
  - split; [reflexivity|]. split; [reflexivity|]. split.
    + apply getAccessAction_initialize; [exact Hv | apply action_in_mask].
    + intros p Hp. now apply lookup_insert_ne.
Qed.

(** X10: a tracked begin_access followed at once by end_access on the
    same buffer gives back the thread's head and list; the only buffer
    that differs afterwards is the one that was used. *)
Theorem X10_begin_end_round_trip fuel ra rt l pointer buffer flags pc old :
  is_list (buffers rt) (tlsHead rt) l -> (length l <= fuel)%nat ->
  valid_ptr (tlsHead rt) ->
  disableExclusivityChecking rt = false ->
  pointer <> 0 ->
  isTracking flags = true ->
  load (buffers rt) buffer = Ok old -> buffer ∉ l ->
  (forall a c, a ∈ l -> load (buffers rt) a = Ok c ->
               ~ conflicts pointer (getAccessAction flags) c) ->
  exists rt1 rt2,
    swift_beginAccess fuel ra rt pointer buffer flags pc = Ok rt1 /\
    swift_endAccess fuel rt1 buffer = Ok rt2 /\
    tlsHead rt2 = tlsHead rt /\
    is_list (buffers rt2) (tlsHead rt2) l /\
    (forall p, p <> buffer -> buffers rt2 !! p = buffers rt !! p).
Proof.
  intros Hl Hfuel Hv Hdis Hptr Htr Hold Hnotin Hnc.
  destruct (beginAccess_tracked_spec fuel ra rt l pointer buffer flags pc old
              Hl Hfuel Hv Hdis Hptr Htr Hold Hnotin Hnc) as (Hb & Hn & Hl').
  eexists _, _. split; [exact Hb|].
  assert (Hbuf : buffer <> 0) by now apply load_Ok in Hold.
  unfold swift_endAccess. simpl. rewrite (load_insert_eq _ _ _ Hbuf). simpl.
  destruct (Z.eqb_spec pointer 0) as [|_]; [contradiction|].
  unfold AccessSet_remove. destruct (Z.eqb_spec buffer 0) as [|_]; [contradiction|].
  simpl. rewrite assert_true. simpl. rewrite Z.eqb_refl.
  rewrite (load_insert_eq _ _ _ Hbuf). simpl.
  split; [reflexivity|]. simpl. split; [exact Hn|]. split.
  - rewrite Hn. apply is_seg_insert_notin; assumption.
  - intros p Hp. now apply lookup_insert_ne.
Qed.

Lemma begin_all_spec fuel ra : forall cs rt l,
  is_list (buffers rt) (tlsHead rt) l ->
  valid_ptr (tlsHead rt) ->
  disableExclusivityChecking rt = false ->
  NoDup (map call_buffer cs) ->
  NoDup (map call_pointer cs) ->
  (forall c, c ∈ cs ->
     (call_buffer c ∉ l) /\
     (exists old, load (buffers rt) (call_buffer c) = Ok old) /\
     valid_ptr (call_buffer c) /\ call_pointer c <> 0 /\
     isTracking (call_flags c) = true) ->
  (forall c a, c ∈ cs -> a ∈ l -> pointer_at (buffers rt) a <> call_pointer c) ->
  (length l + length cs <= fuel)%nat ->
  exists rt',
    begin_all fuel ra rt cs = Ok rt' /\
    is_list (buffers rt') (tlsHead rt') (rev (map call_buffer cs) ++ l) /\
    disableExclusivityChecking rt' = false /\
    (forall c, c ∈ cs -> pointer_at (buffers rt') (call_buffer c) = call_pointer c) /\
    (forall p, p ∉ map call_buffer cs -> buffers rt' !! p = buffers rt !! p).
Proof.
  induction cs as [|c cs IH]; intros rt l Hl Hv Hdis Hndb Hndp Hcs Hfresh Hfuel.
  - exists rt. split; [reflexivity|]. split; [exact Hl|]. split; [exact Hdis|].
    split; [intros c Hc; inversion Hc | reflexivity].
  - simpl in Hndb, Hndp. apply NoDup_cons in Hndb as (Hb & Hndb).
    apply NoDup_cons in Hndp as (Hp & Hndp).
    destruct (Hcs c) as (Hcl & (old & Hold) & Hcv & Hcp & Hct); [left|].
    destruct (beginAccess_tracked_spec fuel ra rt l (call_pointer c) (call_buffer c)
                (call_flags c) (call_pc c) old) as (Hbeg & Hn & Hl'); try assumption.
    { simpl in Hfuel. lia. }
    { intros a c0 Ha Hc0 [Hpc _]. apply (Hfresh c a); [left | exact Ha |].
      rewrite (pointer_at_load _ _ _ Hc0). exact Hpc. }
    set (r := Access_initialize (if call_pc c =? 0 then ra else call_pc c)
                (call_pointer c) (tlsHead rt) (getAccessAction (call_flags c))) in *.
    set (rt1 := mkRuntime (<[call_buffer c := r]> (buffers rt)) (call_buffer c) false) in *.
    assert (Hb0 : call_buffer c <> 0) by now apply load_Ok in Hold.
    destruct (IH rt1 (call_buffer c :: l)) as (rt' & Hrun & Hlist & Hdis' & Hptrs & Hframe);
      try assumption; try reflexivity.
    + intros c' Hc'. destruct (Hcs c') as (H1 & (old' & H2) & H3 & H4 & H5); [now right|].
      assert (Hne : call_buffer c <> call_buffer c').
      { intros Heq. apply Hb. rewrite Heq. apply list_elem_of_fmap. eauto. }
      split; [|split; [|auto]].
      * intros Hin. apply elem_of_cons in Hin as [Heq|Hin]; [congruence | contradiction].
      * exists old'. simpl. rewrite load_insert_ne; assumption.
    + intros c' a Hc' Ha. simpl. apply elem_of_cons in Ha as [->|Ha].
      * unfold pointer_at. rewrite lookup_insert_eq. simpl.
        intros Heq. apply Hp. rewrite Heq. apply list_elem_of_fmap. eauto.
      * assert (Hne : call_buffer c <> a) by (intros <-; contradiction).
        unfold pointer_at. rewrite lookup_insert_ne by exact Hne.
        apply (Hfresh c' a); [now right | exact Ha].
    + simpl in *. lia.
    + exists rt'. split; [simpl; rewrite Hbeg; exact Hrun|].
      split; [simpl; rewrite <- app_assoc; exact Hlist|].
      split; [exact Hdis'|]. split.
      * intros c' Hc'. apply elem_of_cons in Hc' as [->|Hc']; [|now apply Hptrs].
        unfold pointer_at. rewrite Hframe.
        -- simpl. rewrite lookup_insert_eq. reflexivity.
        -- exact Hb.
      * intros p Hp'. simpl in Hp'. rewrite Hframe.
        -- simpl. apply lookup_insert_ne. intros Heq. apply Hp'. rewrite Heq. left.
        -- intros Hin. apply Hp'. now right.
Qed.

End Bracketing.

Section Unwinding.
Context {abi : ExclusivityABI}.

Lemma elem_of_rev (x : Z) (l : list Z) : x ∈ rev l <-> x ∈ l.
Proof. rewrite !list_elem_of_In. symmetry. apply in_rev. Qed.

Lemma list_difference_app (l1 l2 k : list Z) :
  list_difference (l1 ++ l2) k = list_difference l1 k ++ list_difference l2 k.
Proof.
  induction l1 as [|x l1 IH]; [reflexivity|]. simpl.
  destruct (decide_rel elem_of x k); [exact IH | simpl; now rewrite IH].
Qed.

Lemma list_difference_skip (l : list Z) b k :
  b ∉ l -> list_difference l (b :: k) = list_difference l k.
Proof.
  induction l as [|x l IH]; intros Hb; [reflexivity|]. simpl.
  assert (Hx : x <> b) by (intros ->; apply Hb; left).
  assert (Hb' : b ∉ l) by (intros Hin; apply Hb; now right).
  destruct (decide_rel elem_of x (b :: k)) as [Hin|Hnin],
           (decide_rel elem_of x k) as [Hin'|Hnin'].
  - now apply IH.
  - apply elem_of_cons in Hin as [|]; contradiction.
  - exfalso. apply Hnin. now right.
  - f_equal. now apply IH.
Qed.

Lemma list_difference_unlink (l1 : list Z) b l2 k :
  NoDup (l1 ++ b :: l2) ->
  list_difference (l1 ++ b :: l2) (b :: k) = list_difference (l1 ++ l2) k.
Proof.
  intros Hnd. apply NoDup_app in Hnd as (_ & Hdisj & Hnd2).
  apply NoDup_cons in Hnd2 as (Hb2 & _).
  assert (Hb1 : b ∉ l1) by (intros Hin; apply (Hdisj _ Hin); left).
  rewrite !list_difference_app. simpl.
  destruct (decide_rel elem_of b (b :: k)) as [_|Hn]; [|exfalso; apply Hn; left].
  now rewrite !list_difference_skip.
Qed.

Lemma list_difference_all (l k : list Z) :
  (forall x, x ∈ l -> x ∈ k) -> list_difference l k = [].
Proof.
  induction l as [|x l IH]; intros H; [reflexivity|]. simpl.
  destruct (decide_rel elem_of x k) as [_|Hn].
  - apply IH. intros y Hy. apply H. now right.
  - exfalso. apply Hn, H. left.
Qed.

Lemma list_difference_none (l k : list Z) :
  (forall x, x ∈ l -> x ∉ k) -> list_difference l k = l.
Proof.
  induction l as [|x l IH]; intros H; [reflexivity|]. simpl.
  destruct (decide_rel elem_of x k) as [Hin|_].
  - exfalso. apply (H x); [left | exact Hin].
  - f_equal. apply IH. intros y Hy. apply H. now right.
Qed.

(** remove leaves every Pointer field as it was. *)
Lemma remove_keeps_pointers fuel m Head l1 access l2 m' Head' :
  is_list m Head (l1 ++ access :: l2) ->
  (length (l1 ++ access :: l2) <= fuel)%nat ->
  AccessSet_remove fuel m Head access = Ok (m', Head') ->
  is_list m' Head' (l1 ++ l2) /\ forall p, pointer_at m' p = pointer_at m p.
Proof.
  intros Hl Hfuel Hrm.
  destruct (remove_spec fuel m Head l1 access l2 Hl Hfuel)
    as (c & m1 & Head1 & Hc & Hrm1 & Hl1 & Hcase).
  rewrite Hrm in Hrm1. inversion Hrm1; subst m1 Head1.
  split; [exact Hl1|]. intros p. destruct (last l1) as [pred|].
  - destruct Hcase as (_ & _ & pc & Hpc & ->). unfold pointer_at.
    destruct (Z.eq_dec pred p) as [->|Hne].
    + rewrite lookup_insert_eq. apply load_Ok in Hpc as [_ ->]. reflexivity.
    + now rewrite lookup_insert_ne.
  - destruct Hcase as (-> & _). reflexivity.
Qed.

Lemma end_all_spec fuel : forall bufs rt lcur,
  is_list (buffers rt) (tlsHead rt) lcur ->
  NoDup bufs ->
  (forall b, b ∈ bufs -> b ∈ lcur /\ pointer_at (buffers rt) b <> 0) ->
  (length lcur <= fuel)%nat ->
  exists rt',
    end_all fuel rt bufs = Ok rt' /\
    is_list (buffers rt') (tlsHead rt') (list_difference lcur bufs) /\
    disableExclusivityChecking rt' = disableExclusivityChecking rt /\
    (forall p, pointer_at (buffers rt') p = pointer_at (buffers rt) p).
Proof.
  induction bufs as [|b bufs IH]; intros rt lcur Hl Hnd Hin Hfuel.
  - exists rt. split; [reflexivity|].
    rewrite list_difference_none by (intros x _ Hx; inversion Hx). auto.
  - apply NoDup_cons in Hnd as (Hb & Hnd).
    destruct (Hin b) as (Hbl & Hbp); [left|].
    apply list_elem_of_split in Hbl as (l1 & l2 & ->).
    destruct (is_seg_elem_load _ _ _ _ b Hl) as (a & Ha);
      [apply elem_of_app; right; left|].
    rewrite (pointer_at_load _ _ _ Ha) in Hbp.
    destruct (remove_spec fuel _ _ l1 b l2 Hl Hfuel)
      as (c & m' & Head' & _ & Hrm & _ & _).
    destruct (remove_keeps_pointers fuel _ _ l1 b l2 m' Head' Hl Hfuel Hrm)
      as (Hl' & Hptr).
    set (rt1 := mkRuntime m' Head' (disableExclusivityChecking rt)).
    destruct (IH rt1 (l1 ++ l2)) as (rt' & Hrun & Hlist & Hdis & Hptrs);
      try assumption.
    + intros b' Hb'. destruct (Hin b') as (Hbl' & Hbp'); [now right|].
      split.
      * apply elem_of_app in Hbl' as [H1|H2]; apply elem_of_app; [now left|].
        apply elem_of_cons in H2 as [->|H2]; [contradiction | now right].
      * simpl. now rewrite Hptr.
    + rewrite length_app in *. simpl in Hfuel. lia.
    + exists rt'. split.
      * simpl. unfold swift_endAccess at 1. rewrite Ha. simpl.
        destruct (Z.eqb_spec (Pointer a) 0) as [|_]; [contradiction|].
        rewrite Hrm. simpl. exact Hrun.
      * rewrite list_difference_unlink by (eapply is_list_NoDup; exact Hl).
        split; [exact Hlist|]. split; [exact Hdis|].
        intros p. rewrite Hptrs. apply Hptr.
Qed.

Context {laws : ExclusivityABILaws abi}.

(** X11: a run of tracked begin_access calls on distinct buffers and
    pairwise distinct storage pointers, none of them already accessed,
    never reports a conflict and leaves the buffers listed newest
    first; ending those accesses afterwards, in any order, succeeds and
    gives back the thread's head and list as they were before the run. *)
Theorem X11_begin_all_end_all fuel ra rt l cs bufs :
  is_list (buffers rt) (tlsHead rt) l ->
  valid_ptr (tlsHead rt) ->
  disableExclusivityChecking rt = false ->
  NoDup (map call_buffer cs) ->
  NoDup (map call_pointer cs) ->
  (forall c, c ∈ cs ->
     (call_buffer c ∉ l) /\
     (exists old, load (buffers rt) (call_buffer c) = Ok old) /\
     valid_ptr (call_buffer c) /\ call_pointer c <> 0 /\
     isTracking (call_flags c) = true) ->
  (forall c a, c ∈ cs -> a ∈ l -> pointer_at (buffers rt) a <> call_pointer c) ->
  bufs ≡ₚ map call_buffer cs ->
  (length l + length cs <= fuel)%nat ->
  exists rt1 rt2,
    begin_all fuel ra rt cs = Ok rt1 /\
    is_list (buffers rt1) (tlsHead rt1) (rev (map call_buffer cs) ++ l) /\
    end_all fuel rt1 bufs = Ok rt2 /\
    tlsHead rt2 = tlsHead rt /\
    is_list (buffers rt2) (tlsHead rt2) l.
Proof.
  intros Hl Hv Hdis Hndb Hndp Hcs Hfresh Hperm Hfuel.
  destruct (begin_all_spec fuel ra cs rt l Hl Hv Hdis Hndb Hndp Hcs Hfresh Hfuel)
    as (rt1 & Hrun & Hl1 & _ & Hptrs & _).
  destruct (end_all_spec fuel bufs rt1 (rev (map call_buffer cs) ++ l) Hl1)
    as (rt2 & Hend & Hl2 & _ & _).
  - rewrite Hperm. exact Hndb.
  - intros b Hb. rewrite Hperm in Hb. split.
    + apply elem_of_app. left. exact (proj2 (elem_of_rev _ _) Hb).
    + apply list_elem_of_fmap in Hb as (c & -> & Hc).
      rewrite (Hptrs c Hc). destruct (Hcs c Hc) as (_ & _ & _ & Hp & _). exact Hp.
  - rewrite length_app, length_rev, length_map. lia.
  - assert (Hdiff : list_difference (rev (map call_buffer cs) ++ l) bufs = l).
    { rewrite list_difference_app, list_difference_all, list_difference_none.
      - reflexivity.
      - intros x Hx Hin. rewrite Hperm in Hin.
        apply list_elem_of_fmap in Hin as (c & -> & Hc).
        destruct (Hcs c Hc) as (Hnl & _). contradiction.
      - intros x Hx. rewrite Hperm. exact (proj1 (elem_of_rev _ _) Hx). }
    rewrite Hdiff in Hl2. exists rt1, rt2.
    split; [exact Hrun|]. split; [exact Hl1|]. split; [exact Hend|].
    split; [|exact Hl2]. eapply is_list_head_eq; eassumption.
Qed.

End Unwinding.

(* ===================================================================== *)
(** ** Further properties: the push/pop protocol as a whole *)
(* ===================================================================== *)

Section Swizzle.
Context {abi : ExclusivityABI}.

Lemma is_seg_same_lookups m m' p l q :
  (forall a, a ∈ l -> m' !! a = m !! a) ->
  is_seg m p l q -> is_seg m' p l q.
Proof.
  intros Heq. apply is_seg_frame. intros a c Ha Hc. exists c.
  split; [|reflexivity]. unfold load in *. now rewrite (Heq a Ha).
Qed.

Lemma relink_keeps_fields m p pc next :
  load m p = Ok pc -> valid_ptr next ->
  forall a c, load m a = Ok c ->
    exists c', load (<[p := Access_setNext pc next]> m) a = Ok c' /\ same_access c c'.
Proof.
  intros Hpc Hv a c Hc. destruct (Z.eq_dec p a) as [->|Hne].
  - rewrite Hpc in Hc. inversion Hc; subst c.
    exists (Access_setNext pc next). split.
    + apply load_insert_eq. now apply load_Ok in Hpc.
    + split; [reflexivity|]. split; [reflexivity|].
      now apply getAccessAction_setNext.
  - exists c. split; [now rewrite load_insert_ne|]. repeat split.
Qed.

(** Push, in all four cases at once. *)
Lemma push_spec m Head ls taskCtx lt :
  is_list m Head ls ->
  is_span m taskCtx lt ->
  (forall a, a ∈ lt -> a ∉ ls) ->
  valid_ptr Head ->
  exists m' Head',
    swift_task_enterThreadLocalContext m Head taskCtx
      = Ok (m', Head', mkTaskCtx Head 0) /\
    is_list m' Head' (lt ++ ls) /\
    is_list m' Head ls /\
    (forall p, p ∉ lt -> m' !! p = m !! p) /\
    (forall a c, load m a = Ok c -> exists c', load m' a = Ok c' /\ same_access c c').
Proof.
  intros Hls [Hlt Hend] Hdisj Hv.
  destruct taskCtx as [TB TE]. simpl in *.
  unfold swift_task_enterThreadLocalContext, hasInitialAccessSet,
    getTaskAccessSetHead, getTaskAccessSetTail,
    setTaskAccessSetHead, setTaskAccessSetTail. simpl.
  assert (Hsame : forall a c, load m a = Ok c ->
            exists c', load m a = Ok c' /\ same_access c c')
    by (intros a c Hc; exists c; repeat split; assumption).
  destruct lt as [|tb lt'].
  - apply is_list_nil in Hlt. simpl in Hend. subst TB TE. simpl.
    destruct (Z.eqb_spec Head 0) as [->|HH]; exists m;
      eexists; (split; [reflexivity|]); auto.
  - pose proof (is_seg_head _ _ _ _ _ Hlt) as [-> Htb].
    destruct (Z.eqb_spec tb 0) as [|_]; [contradiction|]. simpl.
    destruct (last (tb :: lt')) as [te|] eqn:Hlast;
      [|apply last_None in Hlast; discriminate].
    subst TE.
    destruct (Z.eqb_spec Head 0) as [->|HH].
    + apply is_list_null in Hls. subst ls. exists m, tb.
      split; [reflexivity|]. rewrite app_nil_r. split; [exact Hlt|].
      split; [reflexivity|]. auto.
    + pose proof Hlast as Hsn. apply last_Some in Hsn as (l0 & Hl0).
      pose proof Hlt as Hlt0. rewrite Hl0 in Hlt0. unfold is_list in Hlt0.
      apply is_seg_snoc in Hlt0 as (Hs0 & c & Hc & Hcn).
      rewrite Hc. simpl. rewrite (store_Ok _ _ _ _ Hc). simpl.
      exists (<[te := Access_setNext c Head]> m), tb.
      split; [reflexivity|].
      assert (Hte : te ∈ tb :: lt') by (apply last_Some_elem_of; exact Hlast).
      split; [|split; [|split]].
      * change (is_list (<[te := Access_setNext c Head]> m) tb ((tb :: lt') ++ ls)).
        rewrite Hl0, <- app_assoc. simpl.
        apply is_seg_relink; try assumption.
        replace (l0 ++ te :: ls) with ((tb :: lt') ++ ls)
          by (rewrite Hl0, <- app_assoc; reflexivity).
        apply NoDup_app. split; [eapply is_list_NoDup; exact Hlt|].
        split; [exact Hdisj | eapply is_list_NoDup; exact Hls].
      * apply is_seg_insert_notin; [|exact Hls]. now apply Hdisj.
      * intros p Hp. apply lookup_insert_ne. intros <-. contradiction.
      * now apply relink_keeps_fields.
Qed.

(** Pop, in all its cases at once: the thread's list is the task's part
    [lt] followed by the synchronous part [ls], which starts at the
    pivot stashed in the task's first word. *)
Lemma pop_spec fuel m Head lt ls pivot :
  is_seg m Head lt pivot ->
  is_list m pivot ls ->
  (length (lt ++ ls) <= fuel)%nat ->
  exists m' t',
    swift_task_exitThreadLocalContext fuel m Head (mkTaskCtx pivot 0)
      = Ok (m', pivot, t') /\
    is_span m' t' lt /\
    is_list m' pivot ls /\
    (forall p, p ∉ lt -> m' !! p = m !! p) /\
    (forall a c, load m a = Ok c -> exists c', load m' a = Ok c' /\ same_access c c').
Proof.
  intros Hseg Hls Hfuel.
  assert (Hl : is_list m Head (lt ++ ls)) by (apply is_seg_app; eauto).
  pose proof (is_list_NoDup _ _ _ Hl) as Hnd.
  assert (Hsame : forall a c, load m a = Ok c ->
            exists c', load m a = Ok c' /\ same_access c c')
    by (intros a c Hc; exists c; repeat split; assumption).
  unfold swift_task_exitThreadLocalContext, getTaskAccessSetHead,
    getTaskAccessSetTail, setTaskAccessSetHead, setTaskAccessSetTail. simpl.
  destruct ls as [|pv ls'].
  - apply is_list_nil in Hls. subst pivot. simpl. rewrite app_nil_r in *.
    destruct lt as [|h lt'].
    + apply is_list_nil in Hl. subst Head. simpl. rewrite assert_true. simpl.
      exists m, (mkTaskCtx 0 0). split; [reflexivity|].
      split; [split; reflexivity|]. split; [reflexivity|]. auto.
    + pose proof (is_seg_head _ _ _ _ _ Hl) as [-> Hh].
      destruct (Z.eqb_spec h 0) as [|_]; [contradiction|].
      destruct (last (h :: lt')) as [e|] eqn:Hlast;
        [|apply last_None in Hlast; discriminate].
      rewrite (getTail_spec fuel m h (h :: lt') e Hl Hlast Hfuel). simpl.
      assert (He : e <> 0).
      { apply last_Some_elem_of in Hlast.
        destruct (is_seg_elem_load _ _ _ _ _ Hl Hlast) as (c & Hc).
        now apply load_Ok in Hc. }
      destruct (Z.eqb_spec e 0) as [|_]; [contradiction|]. simpl.
      rewrite assert_true. simpl.
      exists m, (mkTaskCtx h e). split; [reflexivity|].
      split; [split; [exact Hl | simpl; now rewrite Hlast]|].
      split; [reflexivity|]. auto.
  - pose proof (is_seg_head _ _ _ _ _ Hls) as [-> Hpv].
    destruct (Z.eqb_spec pv 0) as [|_]; [contradiction|].
    destruct lt as [|h lt'].
    + simpl in Hseg. subst Head. rewrite Z.eqb_refl.
      exists m, (mkTaskCtx 0 0). split; [reflexivity|].
      split; [split; reflexivity|]. split; [exact Hls|]. auto.
    + pose proof (is_seg_head _ _ _ _ _ Hseg) as [-> Hh].
      apply NoDup_app in Hnd as (Hnd1 & Hdisj & Hnd2).
      assert (Hne : h <> pv).
      { intros Heq. apply (Hdisj h); [left | rewrite Heq; left]. }
      destruct (Z.eqb_spec h pv) as [|_]; [contradiction|].
      destruct (last (h :: lt')) as [pred|] eqn:Hlast;
        [|apply last_None in Hlast; discriminate].
      destruct (findParentAccess_spec fuel m h h (lt' ++ pv :: ls') pv Hl Hfuel)
        as (_ & _ & H3).
      rewrite (H3 (h :: lt') ls' pred eq_refl Hlast). simpl.
      assert (Hpin : pred ∈ h :: lt') by (apply last_Some_elem_of; exact Hlast).
      destruct (is_seg_elem_load m h ((h :: lt') ++ pv :: ls') 0 pred Hl)
        as (pc & Hpc); [apply elem_of_app; now left|].
      rewrite Hpc. simpl. rewrite (store_Ok _ _ _ _ Hpc). simpl.
      exists (<[pred := Access_setNext pc 0]> m), (mkTaskCtx h pred).
      split; [reflexivity|]. split; [|split; [|split]].
      * split; [|simpl; now rewrite Hlast].
        pose proof Hlast as Hsn. apply last_Some in Hsn as (l0 & Hl0).
        simpl state0. rewrite Hl0 in *.
        apply is_seg_app in Hseg as (r & H0 & (-> & _)).
        apply (is_seg_relink m h l0 pred pc 0 [] 0); try assumption.
        -- reflexivity.
        -- apply valid_ptr_0.
      * apply is_seg_insert_notin; [|exact Hls]. now apply Hdisj.
      * intros p Hp. apply lookup_insert_ne. intros <-. contradiction.
      * apply relink_keeps_fields; [exact Hpc | apply valid_ptr_0].
Qed.

(** X12: push, whichever of its four cases applies, puts the task's
    saved accesses in front of the thread's synchronous ones, leaves
    the synchronous list as it was, stores the old thread head in the
    task's first word and null in the second, and writes to no record
    outside the task's span; no record changes pointer, pc or action. *)
Theorem X12_push_installs_span m Head ls taskCtx lt :
  is_list m Head ls ->
  is_span m taskCtx lt ->
  (forall a, a ∈ lt -> a ∉ ls) ->
  valid_ptr Head ->
  exists m' Head',
    swift_task_enterThreadLocalContext m Head taskCtx
      = Ok (m', Head', mkTaskCtx Head 0) /\
    Head' = (if state0 taskCtx =? 0 then Head else state0 taskCtx) /\
    is_list m' Head' (lt ++ ls) /\
    is_list m' Head ls /\
    (forall p, p ∉ lt -> m' !! p = m !! p) /\
    (forall a c, load m a = Ok c -> exists c', load m' a = Ok c' /\ same_access c c').
Proof.
  intros Hls Hspan Hdisj Hv.
  destruct (push_spec m Head ls taskCtx lt Hls Hspan Hdisj Hv)
    as (m' & Head' & Hpush & Hl' & Hls' & Hframe & Hsame).
  exists m', Head'. split; [exact Hpush|].
  split; [|split; [exact Hl'|split; [exact Hls'|split; assumption]]].
  destruct Hspan as [Hlt _]. destruct lt as [|tb lt'].
  - apply is_list_nil in Hlt. rewrite Hlt. simpl.
    eapply is_list_head_eq; eassumption.
  - pose proof (is_seg_head _ _ _ _ _ Hlt) as [Htb Hnz].
    pose proof (is_seg_head _ _ _ _ _ Hl') as [HH' _].
    rewrite Htb. destruct (Z.eqb_spec tb 0) as [|_]; [contradiction|].
    exact HH'.
Qed.

(** X13: pop, whichever of its cases applies, splits the thread's list
    at the pivot: the records in front of it become the task's saved
    span (first word the old head, second word the last of them, both
    null when there are none), the thread keeps the list from the pivot
    on, and no record outside the task's part is written. *)
Theorem X13_pop_extracts_span fuel m Head lt ls pivot :
  is_seg m Head lt pivot ->
  is_list m pivot ls ->
  (length (lt ++ ls) <= fuel)%nat ->
  exists m' t',
    swift_task_exitThreadLocalContext fuel m Head (mkTaskCtx pivot 0)
      = Ok (m', pivot, t') /\
    state0 t' = default 0 (head lt) /\
    state1 t' = default 0 (last lt) /\
    is_span m' t' lt /\
    is_list m' pivot ls /\
    (forall p, p ∉ lt -> m' !! p = m !! p) /\
    (forall a c, load m a = Ok c -> exists c', load m' a = Ok c' /\ same_access c c').
Proof.
  intros Hseg Hls Hfuel.
  destruct (pop_spec fuel m Head lt ls pivot Hseg Hls Hfuel)
    as (m' & t' & Hpop & Hspan & Hls' & Hframe & Hsame).
  exists m', t'. split; [exact Hpop|].
  pose proof Hspan as [Hlt Hend].
  split; [|split; [|split; [exact Hspan|split; [exact Hls'|split; assumption]]]].
  - destruct lt as [|h lt']; simpl.
    + now apply is_list_nil in Hlt.
    + now apply is_seg_head in Hlt as [-> _].
  - destruct (last lt); exact Hend.
Qed.

End Swizzle.

Section Suspension.
Context {abi : ExclusivityABI}.

(** X14: for a running task (thread list = task part followed by the
    synchronous part, the pivot in the task's first word), pop followed
    at once by push on the same thread gives back the memory, the
    thread head and the task's two words exactly. *)
Theorem X14_pop_push_restores fuel m Head lt ls pivot :
  is_seg m Head lt pivot ->
  is_list m pivot ls ->
  valid_ptr pivot ->
  (forall e c, last lt = Some e -> load m e = Ok c ->
               0 <= NextAndAction c < uintptr_modulus) ->
  (length (lt ++ ls) <= fuel)%nat ->
  exists m1 Head1 taskCtx1,
    swift_task_exitThreadLocalContext fuel m Head (mkTaskCtx pivot 0)
      = Ok (m1, Head1, taskCtx1) /\
    swift_task_enterThreadLocalContext m1 Head1 taskCtx1
      = Ok (m, Head, mkTaskCtx pivot 0).
Proof.
  intros Hseg Hls Hv Hword Hfuel.
  assert (Hl : is_list m Head (lt ++ ls)) by (apply is_seg_app; eauto).
  pose proof (is_list_NoDup _ _ _ Hl) as Hnd.
  unfold swift_task_exitThreadLocalContext, swift_task_enterThreadLocalContext,
    hasInitialAccessSet, getTaskAccessSetHead,
    getTaskAccessSetTail, setTaskAccessSetHead, setTaskAccessSetTail. simpl.
  destruct ls as [|pv ls'].
  - apply is_list_nil in Hls. subst pivot. simpl. rewrite app_nil_r in *.
    destruct lt as [|h lt'].
    + apply is_list_nil in Hl. subst Head. simpl. rewrite assert_true. simpl.
      eexists _, _, _. split; reflexivity.
    + pose proof (is_seg_head _ _ _ _ _ Hl) as [-> Hh].
      destruct (Z.eqb_spec h 0) as [|_]; [contradiction|].
      destruct (last (h :: lt')) as [e|] eqn:Hlast;
        [|apply last_None in Hlast; discriminate].
      rewrite (getTail_spec fuel m h (h :: lt') e Hl Hlast Hfuel). simpl.
      assert (He : e <> 0).
      { apply last_Some_elem_of in Hlast.
        destruct (is_seg_elem_load _ _ _ _ _ Hl Hlast) as (c & Hc).
        now apply load_Ok in Hc. }
      destruct (Z.eqb_spec e 0) as [|_]; [contradiction|]. simpl.
      rewrite assert_true. simpl.
      eexists _, _, _. split; [reflexivity|]. simpl.
      destruct (Z.eqb_spec h 0) as [|_]; [contradiction|]. reflexivity.
  - pose proof (is_seg_head _ _ _ _ _ Hls) as [-> Hpv].
    destruct (Z.eqb_spec pv 0) as [|_]; [contradiction|].
    destruct lt as [|h lt'].
    + simpl in Hseg. subst Head. rewrite Z.eqb_refl.
      eexists _, _, _. split; [reflexivity|]. simpl.
      destruct (Z.eqb_spec pv 0) as [|_]; [contradiction|]. reflexivity.
    + pose proof (is_seg_head _ _ _ _ _ Hseg) as [-> Hh].
      apply NoDup_app in Hnd as (Hnd1 & Hdisj & Hnd2).
      assert (Hne : h <> pv).
      { intros Heq. apply (Hdisj h); [left | rewrite Heq; left]. }
      destruct (Z.eqb_spec h pv) as [|_]; [contradiction|].
      destruct (last (h :: lt')) as [pred|] eqn:Hlast;
        [|apply last_None in Hlast; discriminate].
      destruct (findParentAccess_spec fuel m h h (lt' ++ pv :: ls') pv Hl Hfuel)
        as (_ & _ & H3).
      rewrite (H3 (h :: lt') ls' pred eq_refl Hlast). simpl.
      pose proof Hlast as Hsn. apply last_Some in Hsn as (l0 & Hl0).
      pose proof Hseg as Hseg0. rewrite Hl0 in Hseg0.
      apply is_seg_snoc in Hseg0 as (_ & pc & Hpc & Hnext).
      rewrite Hpc. simpl. rewrite (store_Ok _ _ _ _ Hpc). simpl.
      eexists _, _, _. split; [reflexivity|]. simpl.
      destruct (Z.eqb_spec h 0) as [|_]; [contradiction|].
      destruct (Z.eqb_spec pv 0) as [|_]; [contradiction|]. simpl.
      assert (Hp0 : pred <> 0) by now apply load_Ok in Hpc.
      rewrite (load_insert_eq _ _ _ Hp0). simpl.
      unfold store. rewrite (load_insert_eq _ _ _ Hp0). simpl.
      rewrite insert_insert_eq.
      rewrite setNext_setNext by apply valid_ptr_0.
      rewrite <- Hnext, setNext_getNext_id by (eapply Hword; eauto).
      rewrite insert_id; [reflexivity|]. now apply load_Ok in Hpc.
Qed.

(** X15: a task suspended on one thread and resumed on another takes
    its accesses along: after pop on the first thread and push on a
    thread with its own synchronous list, the second thread's list is
    the task's accesses followed by that thread's own, and both
    threads' synchronous lists are as they were. *)
Theorem X15_pop_then_push_elsewhere fuel m HeadA lt lsA pivotA HeadB lsB :
  is_seg m HeadA lt pivotA ->
  is_list m pivotA lsA ->
  is_list m HeadB lsB ->
  (forall a, a ∈ lt -> a ∉ lsB) ->
  valid_ptr HeadB ->
  (length (lt ++ lsA) <= fuel)%nat ->
  exists m1 t1 m2 Head2,
    swift_task_exitThreadLocalContext fuel m HeadA (mkTaskCtx pivotA 0)
      = Ok (m1, pivotA, t1) /\
    swift_task_enterThreadLocalContext m1 HeadB t1
      = Ok (m2, Head2, mkTaskCtx HeadB 0) /\
    is_list m2 Head2 (lt ++ lsB) /\
    is_list m2 HeadB lsB /\
    is_list m2 pivotA lsA.
Proof.
  intros Hseg HlsA HlsB Hdisj Hv Hfuel.
  assert (HlA : is_list m HeadA (lt ++ lsA)) by (apply is_seg_app; eauto).
  pose proof (is_list_NoDup _ _ _ HlA) as Hnd.
  apply NoDup_app in Hnd as (_ & HdisjA & _).
  destruct (pop_spec fuel m HeadA lt lsA pivotA Hseg HlsA Hfuel)
    as (m1 & t1 & Hpop & Hspan & HlsA1 & Hframe1 & _).
  assert (HlsB1 : is_list m1 HeadB lsB).
  { apply (is_seg_same_lookups m); [|exact HlsB].
    intros a Ha. apply Hframe1. intros Hin. exact (Hdisj a Hin Ha). }
  destruct (push_spec m1 HeadB lsB t1 lt HlsB1 Hspan Hdisj Hv)
    as (m2 & Head2 & Hpush & Hl2 & HlsB2 & Hframe2 & _).
  exists m1, t1, m2, Head2. split; [exact Hpop|]. split; [exact Hpush|].
  split; [exact Hl2|]. split; [exact HlsB2|].
  apply (is_seg_same_lookups m1); [|exact HlsA1].
  intros a Ha. apply Hframe2. intros Hin. exact (HdisjA a Hin Ha).
Qed.

(** X16: pop with a non-null pivot that is no longer on the thread's
    list (the set is empty, or holds other records only) does not
    return: findParentAccess reads through the null head, or finds no
    parent and pop then writes through the null result. *)
Theorem X16_pop_lost_pivot fuel m Head l pivot te :
  is_list m Head l -> pivot <> 0 -> pivot ∉ l ->
  (length l <= fuel)%nat ->
  swift_task_exitThreadLocalContext fuel m Head (mkTaskCtx pivot te)
    = Err BadPointer.
Proof.
  intros Hl Hp Hnotin Hfuel.
  unfold swift_task_exitThreadLocalContext, getTaskAccessSetHead. simpl.
  destruct (Z.eqb_spec pivot 0) as [|_]; [contradiction|].
  destruct l as [|h l'].
  - apply is_list_nil in Hl. subst Head.
    destruct (Z.eqb_spec 0 pivot) as [Heq|_]; [congruence|]. reflexivity.
  - pose proof (is_seg_head _ _ _ _ _ Hl) as [-> Hh].
    destruct (Z.eqb_spec h pivot) as [Heq|_].
    + exfalso. apply Hnotin. rewrite <- Heq. left.
    + destruct (findParentAccess_spec fuel m h h l' pivot Hl Hfuel) as (_ & H2 & _).
      rewrite (H2 Hnotin). reflexivity.
Qed.

Context {laws : ExclusivityABILaws abi}.

Lemma insert_conflict_spec fuel m Head l access pc pointer flags :
  is_list m Head l -> (length l <= fuel)%nat ->
  (AccessSet_insert fuel m Head access pc pointer flags = Err Conflict <->
   exists a c, a ∈ l /\ load m a = Ok c /\
               conflicts pointer (getAccessAction flags) c).
Proof.
  intros Hl Hlen. unfold AccessSet_insert, conflicts.
  destruct (insert_scan_spec fuel m Head l pointer (getAccessAction flags) Hl Hlen)
    as [(He & a & c & Hin & Hc & Hp & Hn)|(He & Hall)]; rewrite He; simpl.
  - split; [intros _ | intros _; reflexivity]. exists a, c.
    split; [exact Hin|]. split; [exact Hc|]. split; [exact Hp|].
    now apply not_both_reads.
  - split.
    + destruct (isTracking flags); simpl; [|discriminate].
      unfold store. destruct (load m access) as [b|e] eqn:Hb; simpl; [discriminate|].
      apply load_Err in Hb. subst e. discriminate.
    + intros (a & c & Hin & Hc & Hp & Hm). exfalso.
      apply not_both_reads in Hm. apply Hm. eapply Hall; eassumption.
Qed.

Lemma conflicts_same_access pointer action c c' :
  same_access c c' -> conflicts pointer action c -> conflicts pointer action c'.
Proof.
  intros (Hp & _ & Ha) [H1 H2]. unfold conflicts. rewrite Hp, Ha. auto.
Qed.

(** X17: while a task runs, an access it begins is checked against the
    task's own accesses and against the synchronous accesses of the
    thread it runs on: after push, insert reports a conflict exactly
    when one of the task's or the thread's records conflicts.  Before
    the push, while the task is suspended, the thread's scan sees the
    synchronous records only: a record of the suspended task that
    would conflict is not reported. *)
Theorem X17_conflicts_across_push_pop fuel m Head ls taskCtx lt
    access pc pointer flags :
  is_list m Head ls ->
  is_span m taskCtx lt ->
  (forall a, a ∈ lt -> a ∉ ls) ->
  valid_ptr Head ->
  (length (lt ++ ls) <= fuel)%nat ->
  (exists m1 Head1 t1,
     swift_task_enterThreadLocalContext m Head taskCtx = Ok (m1, Head1, t1) /\
     (AccessSet_insert fuel m1 Head1 access pc pointer flags = Err Conflict <->
      exists a c, a ∈ lt ++ ls /\ load m a = Ok c /\
                  conflicts pointer (getAccessAction flags) c))
  /\
  (AccessSet_insert fuel m Head access pc pointer flags = Err Conflict <->
   exists a c, a ∈ ls /\ load m a = Ok c /\
               conflicts pointer (getAccessAction flags) c).
Proof.
  intros Hls Hspan Hdisj Hv Hfuel. split.
  - destruct (push_spec m Head ls taskCtx lt Hls Hspan Hdisj Hv)
      as (m1 & Head1 & Hpush & Hl1 & _ & _ & Hsame).
    exists m1, Head1, (mkTaskCtx Head 0). split; [exact Hpush|].
    rewrite (insert_conflict_spec fuel m1 Head1 (lt ++ ls)) by assumption.
    assert (Hl0 : forall a, a ∈ lt ++ ls -> exists c, load m a = Ok c).
    { intros a Ha. apply elem_of_app in Ha as [Ha|Ha].
      - destruct Hspan as [Hlt _]. eapply is_seg_elem_load; eassumption.
      - eapply is_seg_elem_load; eassumption. }
    split; intros (a & c & Hin & Hc & Hconf).
    + destruct (Hl0 a Hin) as (c0 & Hc0).
      destruct (Hsame a c0 Hc0) as (c' & Hc' & Hs).
      rewrite Hc in Hc'. inversion Hc'; subst c'.
      exists a, c0. split; [exact Hin|]. split; [exact Hc0|].
      destruct Hs as (Hp & Hpc & Ha). destruct Hconf as [H1 H2].
      unfold conflicts. rewrite <- Hp, <- Ha. auto.
    + destruct (Hsame a c Hc) as (c' & Hc' & Hs).
      exists a, c'. split; [exact Hin|]. split; [exact Hc'|].
      eapply conflicts_same_access; eassumption.
  - apply insert_conflict_spec; [exact Hls|].
    rewrite length_app in Hfuel. lia.
Qed.

End Suspension.

(* ===================================================================== *)
(** ** Further properties: diagnostics *)
(* ===================================================================== *)

Section Reports.
Context {abi : ExclusivityABI}.

(** The scan that keeps the report stops where the plain scan stops. *)
Lemma insert_scan_report_agrees fuel : forall m cur pc pointer flags,
  insert_scan fuel m cur pointer (getAccessAction flags) =
  match insert_scan_report fuel m cur pc pointer flags with
  | Ok None => Ok tt
  | Ok (Some _) => Err Conflict
  | Err e => Err e
  end.
Proof.
  induction fuel as [|fuel IH]; intros m cur pc pointer flags; simpl.
  - destruct (cur =? 0); reflexivity.
  - destruct (cur =? 0); [reflexivity|].
    destruct (load m cur) as [c|e]; simpl; [|reflexivity].
    destruct (negb (Pointer c =? pointer)); [apply IH|].
    destruct ((getAccessAction flags =? Read) &&
              (getAccessAction flags =? Access_getAccessAction c)); [apply IH|].
    reflexivity.
Qed.

Lemma insert_scan_report_spec fuel : forall m p l pc pointer flags,
  is_list m p l -> (length l <= fuel)%nat ->
  (insert_scan_report fuel m p pc pointer flags = Ok None /\
   forall a c, a ∈ l -> load m a = Ok c -> Pointer c = pointer ->
     getAccessAction flags = Read /\ Access_getAccessAction c = Read)
  \/
  (exists l1 a l2 c,
     l = l1 ++ a :: l2 /\ load m a = Ok c /\ Pointer c = pointer /\
     ~ (getAccessAction flags = Read /\ Access_getAccessAction c = Read) /\
     (forall b cb, b ∈ l1 -> load m b = Ok cb -> Pointer cb = pointer ->
        getAccessAction flags = Read /\ Access_getAccessAction cb = Read) /\
     insert_scan_report fuel m p pc pointer flags
       = Ok (Some (mkConflictReport (Access_getAccessAction c) (PC c)
                                    flags pc pointer))).
Proof.
  induction fuel as [|fuel IH]; intros m p l pc pointer flags Hl Hlen.
  - destruct l; [|simpl in Hlen; lia]. apply is_list_nil in Hl. subst p.
    left. split; [reflexivity|]. intros a c Hin. inversion Hin.
  - destruct l as [|a l].
    + apply is_list_nil in Hl. subst p. left. split; [reflexivity|].
      intros a c Hin. inversion Hin.
    + pose proof (is_seg_head _ _ _ _ _ Hl) as [-> Ha].
      destruct Hl as (_ & c & Hc & Hs). simpl.
      destruct (Z.eqb_spec a 0) as [|_]; [contradiction|].
      rewrite Hc. simpl.
      assert (Hrec : (length l <= fuel)%nat) by (simpl in Hlen; lia).
      specialize (IH m (Access_getNext c) l pc pointer flags Hs Hrec).
      assert (Hskip :
        (Pointer c = pointer ->
         getAccessAction flags = Read /\ Access_getAccessAction c = Read) ->
        (insert_scan_report fuel m (Access_getNext c) pc pointer flags = Ok None /\
         forall a0 c0, a0 ∈ a :: l -> load m a0 = Ok c0 -> Pointer c0 = pointer ->
           getAccessAction flags = Read /\ Access_getAccessAction c0 = Read)
        \/
        (exists l1 a0 l2 c0,
           a :: l = l1 ++ a0 :: l2 /\ load m a0 = Ok c0 /\ Pointer c0 = pointer /\
           ~ (getAccessAction flags = Read /\ Access_getAccessAction c0 = Read) /\
           (forall b cb, b ∈ l1 -> load m b = Ok cb -> Pointer cb = pointer ->
              getAccessAction flags = Read /\ Access_getAccessAction cb = Read) /\
           insert_scan_report fuel m (Access_getNext c) pc pointer flags
             = Ok (Some (mkConflictReport (Access_getAccessAction c0) (PC c0)
                                          flags pc pointer)))).
      { intros Hhere.
        assert (Hhd : forall b cb, b ∈ [a] -> load m b = Ok cb -> Pointer cb = pointer ->
                  getAccessAction flags = Read /\ Access_getAccessAction cb = Read).
        { intros b cb Hb Hcb Hp. apply list_elem_of_singleton in Hb. subst b.
          rewrite Hc in Hcb. inversion Hcb; subst cb. now apply Hhere. }
        destruct IH as [(He & Hall)|(l1 & a0 & l2 & c0 & -> & Hc0 & Hp0 & Hn0 & Hbefore & He)].
        - left. split; [exact He|]. intros a0 c0 Hin Hc0 Hp.
          apply elem_of_cons in Hin as [->|Hin].
          + apply (Hhd a c0); [left | assumption | assumption].
          + eapply Hall; eassumption.
        - right. exists (a :: l1), a0, l2, c0. split; [reflexivity|].
          split; [exact Hc0|]. split; [exact Hp0|]. split; [exact Hn0|].
          split; [|exact He]. intros b cb Hb Hcb Hp.
          apply elem_of_cons in Hb as [->|Hb].
          + apply (Hhd a cb); [left | assumption | assumption].
          + eapply Hbefore; eassumption. }
      assert (Hstop :
        Pointer c = pointer ->
        ~ (getAccessAction flags = Read /\ Access_getAccessAction c = Read) ->
        exists l1 a0 l2 c0,
           a :: l = l1 ++ a0 :: l2 /\ load m a0 = Ok c0 /\ Pointer c0 = pointer /\
           ~ (getAccessAction flags = Read /\ Access_getAccessAction c0 = Read) /\
           (forall b cb, b ∈ l1 -> load m b = Ok cb -> Pointer cb = pointer ->
              getAccessAction flags = Read /\ Access_getAccessAction cb = Read) /\
           Ok (Some (mkConflictReport (Access_getAccessAction c) (PC c)
                                      flags pc pointer))
             = Ok (Some (mkConflictReport (Access_getAccessAction c0) (PC c0)
                                          flags pc pointer))).
      { intros Hp Hn. exists [], a, l, c. split; [reflexivity|].
        split; [exact Hc|]. split; [exact Hp|]. split; [exact Hn|].
        split; [|reflexivity]. intros b cb Hb. inversion Hb. }
      destruct (Z.eqb_spec (Pointer c) pointer) as [Hp|Hp]; simpl.
      * destruct (Z.eqb_spec (getAccessAction flags) Read) as [Hr|Hr]; simpl.
        -- destruct (Z.eqb_spec (getAccessAction flags) (Access_getAccessAction c))
             as [Hq|Hq].
           ++ apply Hskip. intros _. split; congruence.
           ++ right. apply Hstop; [exact Hp|]. intros [_ Hx]. congruence.
        -- right. apply Hstop; [exact Hp|]. intros [Hx _]. contradiction.
      * apply Hskip. intros Hx. contradiction.
Qed.

Context {laws : ExclusivityABILaws abi}.

Lemma getAccessName_Read : getAccessName Read = "read".
Proof. unfold getAccessName. now rewrite Z.eqb_refl. Qed.

Lemma getAccessName_Modify : getAccessName Modify = "modification".
Proof.
  unfold getAccessName. pose proof Read_neq_Modify.
  destruct (Z.eqb_spec Modify Read) as [|_]; [congruence|].
  now rewrite Z.eqb_refl.
Qed.

(** X18: when insert stops to report a conflict, the previous access it
    hands to reportExclusivityConflict is the first conflicting record
    in list order, that is the most recently begun one, with that
    record's action and PC; the current access is reported with the
    caller's flags, pc and pointer; and of the two access names that
    get printed, at least one is "modification" and neither is
    "unknown".  The plain scan ends in the conflict exactly then. *)
Theorem X18_conflict_report fuel m Head l pc pointer flags :
  is_list m Head l -> (length l <= fuel)%nat ->
  (exists a c, a ∈ l /\ load m a = Ok c /\
               conflicts pointer (getAccessAction flags) c) ->
  exists l1 a l2 c,
    l = l1 ++ a :: l2 /\ load m a = Ok c /\
    conflicts pointer (getAccessAction flags) c /\
    (forall b cb, b ∈ l1 -> load m b = Ok cb ->
                  ~ conflicts pointer (getAccessAction flags) cb) /\
    let r := mkConflictReport (Access_getAccessAction c) (PC c) flags pc pointer in
    insert_scan_report fuel m Head pc pointer flags = Ok (Some r) /\
    insert_scan fuel m Head pointer (getAccessAction flags) = Err Conflict /\
    (reported_old_name r = "modification" \/ reported_new_name r = "modification") /\
    (reported_old_name r = "read" \/ reported_old_name r = "modification") /\
    (reported_new_name r = "read" \/ reported_new_name r = "modification").
Proof.
  intros Hl Hlen (a0 & c0 & Hin0 & Hc0 & Hp0 & Hm0).
  destruct (insert_scan_report_spec fuel m Head l pc pointer flags Hl Hlen)
    as [(_ & Hall)|(l1 & a & l2 & c & -> & Hc & Hp & Hn & Hbefore & He)].
  - exfalso. apply not_both_reads in Hm0. apply Hm0. eapply Hall; eassumption.
  - exists l1, a, l2, c. split; [reflexivity|]. split; [exact Hc|].
    assert (Hconf : conflicts pointer (getAccessAction flags) c)
      by (split; [exact Hp | now apply not_both_reads]).
    split; [exact Hconf|]. split.
    + intros b cb Hb Hcb [Hpb Hmb]. apply not_both_reads in Hmb. apply Hmb.
      eapply Hbefore; eassumption.
    + intros r. split; [exact He|]. split.
      * rewrite (insert_scan_report_agrees fuel m Head pc pointer flags), He.
        reflexivity.
      * unfold reported_old_name, reported_new_name. simpl.
        destruct (flags_action_cases flags) as [Hf|Hf],
                 (record_action_cases c) as [Hr|Hr];
          rewrite Hf, Hr, ?getAccessName_Read, ?getAccessName_Modify;
          try (split; [auto | split; auto]).
        exfalso. destruct Hconf as [_ [Hx|Hx]]; pose proof Read_neq_Modify; congruence.
Qed.

End Reports.

Section Dump.
Context {abi : ExclusivityABI}.

Lemma forEach_spec {S : Type} (f : Z -> S -> S) (action : Z -> S -> result S) m :
  forall l fuel iter s,
  is_list m iter l -> (length l <= fuel)%nat ->
  (forall a s', a ∈ l -> action a s' = Ok (f a s')) ->
  AccessSet_forEach fuel m iter action s = Ok (fold_left (fun s' a => f a s') l s).
Proof.
  induction l as [|a l IH]; intros fuel iter s Hl Hfuel Hact.
  - apply is_list_nil in Hl. subst iter. destruct fuel; reflexivity.
  - destruct fuel as [|fuel]; [simpl in Hfuel; lia|].
    destruct Hl as (-> & c & Hc & Hl). simpl.
    rewrite (load_nonnull _ _ _ Hc). rewrite Hact by left. simpl.
    rewrite Hc. simpl. apply IH; [exact Hl | simpl in Hfuel; lia |].
    intros b s' Hb. apply Hact. now right.
Qed.

Lemma fold_left_snoc (l acc : list Z) :
  fold_left (fun visited a => visited ++ [a]) l acc = acc ++ l.
Proof.
  revert acc. induction l as [|a l IH]; intros acc; simpl.
  - now rewrite app_nil_r.
  - rewrite IH, <- app_assoc. reflexivity.
Qed.

(** X19: forEach calls the action once on every record of a
    well-formed set, from the head to the end of the list, and on
    nothing else; on the empty set it does not call it at all. *)
Theorem X19_forEach_in_list_order {S : Type} (f : Z -> S -> S)
    (action : Z -> S -> result S) fuel m Head l s :
  is_list m Head l -> (length l <= fuel)%nat ->
  (forall a s', a ∈ l -> action a s' = Ok (f a s')) ->
  AccessSet_forEach fuel m Head action s = Ok (fold_left (fun s' a => f a s') l s) /\
  AccessSet_forEach fuel m Head (fun a visited => Ok (visited ++ [a])) [] = Ok l.
Proof.
  intros Hl Hfuel Hact. split; [now apply forEach_spec|].
  rewrite (forEach_spec (fun a visited => visited ++ [a]) _ m l fuel Head [] Hl Hfuel)
    by reflexivity.
  f_equal. apply (fold_left_snoc l []).
Qed.

(** The line the dump prints for the record at an address. *)
Lemma dump_walk m : forall l fuel iter out,
  is_list m iter l -> (length l <= fuel)%nat ->
  exists lines,
    AccessSet_forEach fuel m iter
      (fun a out =>
         do c <- load m a;
         Ok (out ++ [AccessLine (Pointer c) (PC c)
                       (getAccessName (Access_getAccessAction c))]))
      out = Ok (out ++ lines) /\
    Forall2 (fun a line => exists c, load m a = Ok c /\
               line = AccessLine (Pointer c) (PC c)
                        (getAccessName (Access_getAccessAction c))) l lines.
Proof.
  induction l as [|a l IH]; intros fuel iter out Hl Hfuel.
  - apply is_list_nil in Hl. subst iter. exists []. split; [|constructor].
    rewrite app_nil_r. destruct fuel; reflexivity.
  - destruct fuel as [|fuel]; [simpl in Hfuel; lia|].
    destruct Hl as (-> & c & Hc & Hl). simpl.
    rewrite (load_nonnull _ _ _ Hc), Hc. simpl.
    destruct (IH fuel (Access_getNext c)
                (out ++ [AccessLine (Pointer c) (PC c)
                           (getAccessName (Access_getAccessAction c))]) Hl)
      as (lines & Hrun & Hall); [simpl in Hfuel; lia|].
    exists (AccessLine (Pointer c) (PC c)
              (getAccessName (Access_getAccessAction c)) :: lines).
    split.
    + rewrite Hrun, <- app_assoc. reflexivity.
    + constructor; [eauto | exact Hall].
Qed.

(** X20: the debug dump appends to stderr the single line
    "No Accesses." for an empty set, and otherwise exactly one line per
    tracked access, newest first, carrying that record's Pointer, PC
    and action name; what was printed before is kept. *)
Theorem X20_dumpTrackedAccesses fuel m Head l out :
  is_list m Head l -> (length l <= fuel)%nat ->
  exists lines,
    swift_dumpTrackedAccesses fuel m Head out = Ok (out ++ lines) /\
    match l with
    | [] => lines = [NoAccesses]
    | _ :: _ =>
      Forall2 (fun a line => exists c, load m a = Ok c /\
                 line = AccessLine (Pointer c) (PC c)
                          (getAccessName (Access_getAccessAction c))) l lines
    end.
Proof.
  intros Hl Hfuel. unfold swift_dumpTrackedAccesses. destruct l as [|a l].
  - apply is_list_nil in Hl. subst Head. exists [NoAccesses]. split; reflexivity.
  - pose proof (is_seg_head _ _ _ _ _ Hl) as [-> Ha].
    destruct (Z.eqb_spec a 0) as [|_]; [contradiction|].
    apply dump_walk; assumption.
Qed.

End Dump.

(* ===================================================================== *)
(** ** Further properties: the function-replacement flag *)
(* ===================================================================== *)

Section ReplacementFlag.
Variable SWIFT_PTRAUTH : bool.
Variable ptrauth_strip : Z -> Z.

(** X21: the flag set by swift_getOrigOfReplaceable is consumed by
    exactly one lookup.  After it, the next swift_getFunctionReplacement
    whose replacement is not the current function returns null (run the
    original) and clears the flag, and the lookup after that returns the
    replacement again.  A lookup whose replacement is the current
    function returns null too but leaves the flag pending.  None of the
    calls touches the access set. *)
Theorem X21_replacement_flag_one_shot cells ctx OrigFnPtr ReplFnPtr CurrFn orig repl :
  load_fn cells OrigFnPtr = Ok orig ->
  load_fn cells ReplFnPtr = Ok repl ->
  let raw := if SWIFT_PTRAUTH then ptrauth_strip repl else repl in
  let pending := mkTLSContext (accessSet ctx) true in
  let cleared := mkTLSContext (accessSet ctx) false in
  swift_getOrigOfReplaceable cells ctx OrigFnPtr = Ok (pending, orig) /\
  (raw <> CurrFn ->
   swift_getFunctionReplacement SWIFT_PTRAUTH ptrauth_strip cells pending
     ReplFnPtr CurrFn = Ok (cleared, 0) /\
   swift_getFunctionReplacement SWIFT_PTRAUTH ptrauth_strip cells cleared
     ReplFnPtr CurrFn = Ok (cleared, repl)) /\
  (raw = CurrFn ->
   swift_getFunctionReplacement SWIFT_PTRAUTH ptrauth_strip cells pending
     ReplFnPtr CurrFn = Ok (pending, 0)).
Proof.
  intros Horig Hrepl raw pending cleared.
  unfold swift_getOrigOfReplaceable, swift_getFunctionReplacement.
  rewrite Horig, Hrepl. simpl. fold raw.
  split; [reflexivity|]. split.
  - intros Hne. destruct (Z.eqb_spec raw CurrFn) as [|_]; [contradiction|].
    split; reflexivity.
  - intros ->. now rewrite Z.eqb_refl.
Qed.

End ReplacementFlag.

(* ===================================================================== *)
(** ** Further properties: accesses begun and ended by a running task *)
(* ===================================================================== *)

Section RunningTask.
Context {abi : ExclusivityABI}.

Lemma split_at_pivot m Head lt ls pivot :
  is_list m Head (lt ++ ls) -> is_list m pivot ls ->
  is_seg m Head lt pivot.
Proof.
  intros Hl Hls. unfold is_list in Hl. apply is_seg_app in Hl as (r & H1 & H2).
  now rewrite (is_list_head_eq _ _ _ _ _ Hls H2).
Qed.

(** X22: a task that ends one of its own accesses while it runs.
    After push, end_access on a record of the task's span, and pop, the
    task's saved span is its former span without that record, and the
    thread is left with its synchronous list and its old head. *)
Theorem X22_push_end_pop fuel m Head ls taskCtx lt1 b lt2 a disabled :
  is_list m Head ls ->
  is_span m taskCtx (lt1 ++ b :: lt2) ->
  (forall x, x ∈ lt1 ++ b :: lt2 -> x ∉ ls) ->
  valid_ptr Head ->
  load m b = Ok a -> Pointer a <> 0 ->
  (length ((lt1 ++ b :: lt2) ++ ls) <= fuel)%nat ->
  exists m1 Head1 rt2 m3 t3,
    swift_task_enterThreadLocalContext m Head taskCtx
      = Ok (m1, Head1, mkTaskCtx Head 0) /\
    swift_endAccess fuel (mkRuntime m1 Head1 disabled) b = Ok rt2 /\
    swift_task_exitThreadLocalContext fuel (buffers rt2) (tlsHead rt2)
      (mkTaskCtx Head 0) = Ok (m3, Head, t3) /\
    is_span m3 t3 (lt1 ++ lt2) /\
    is_list m3 Head ls.
Proof.
  intros Hls Hspan Hdisj Hv Ha Hp Hfuel.
  destruct (push_spec m Head ls taskCtx _ Hls Hspan Hdisj Hv)
    as (m1 & Head1 & Hpush & Hl1 & Hls1 & _ & Hsame).
  destruct (Hsame b a Ha) as (a1 & Ha1 & (Hp1 & _)).
  rewrite <- app_assoc in Hl1, Hfuel. simpl in Hl1, Hfuel.
  destruct (remove_spec fuel m1 Head1 lt1 b (lt2 ++ ls) Hl1 Hfuel)
    as (c & m2 & Head2 & Hc & Hrm & Hl2 & Hcase).
  assert (Hls2 : is_list m2 Head ls).
  { destruct (last lt1) as [pred|] eqn:Hlast.
    - destruct Hcase as (_ & _ & pc & _ & ->).
      apply is_seg_insert_notin; [|exact Hls1].
      apply Hdisj. apply elem_of_app. left.
      apply last_Some_elem_of. exact Hlast.
    - destruct Hcase as (-> & _). exact Hls1. }
  rewrite app_assoc in Hl2.
  pose proof (split_at_pivot m2 Head2 (lt1 ++ lt2) ls Head Hl2 Hls2) as Hseg2.
  destruct (pop_spec fuel m2 Head2 (lt1 ++ lt2) ls Head Hseg2 Hls2)
    as (m3 & t3 & Hpop & Hspan3 & Hls3 & _).
  { rewrite !length_app in *. simpl in Hfuel. rewrite !length_app in Hfuel. lia. }
  exists m1, Head1, (mkRuntime m2 Head2 disabled), m3, t3.
  split; [exact Hpush|]. split; [|split; [exact Hpop | split; assumption]].
  unfold swift_endAccess. simpl. rewrite Ha1. simpl.
  destruct (Z.eqb_spec (Pointer a1) 0) as [Heq|_]; [rewrite Hp1 in Heq; contradiction|].
  rewrite Hrm. reflexivity.
Qed.

Context {laws : ExclusivityABILaws abi}.

(** X23: a task that begins an access while it runs.  After push, a
    tracked conflict-free begin_access on a fresh buffer, and pop, the
    task's saved span is the new buffer followed by its former span,
    and the thread is left with its synchronous list and its old head:
    the new access travels with the task, not with the thread. *)
Theorem X23_push_begin_pop fuel ra m Head ls taskCtx lt
    pointer buffer flags pc old :
  is_list m Head ls ->
  is_span m taskCtx lt ->
  (forall a, a ∈ lt -> a ∉ ls) ->
  valid_ptr Head -> valid_ptr (state0 taskCtx) ->
  pointer <> 0 ->
  isTracking flags = true ->
  load m buffer = Ok old -> buffer ∉ lt ++ ls ->
  (forall a c, a ∈ lt ++ ls -> load m a = Ok c ->
               ~ conflicts pointer (getAccessAction flags) c) ->
  (S (length (lt ++ ls)) <= fuel)%nat ->
  exists m1 Head1 rt2 m3 t3,
    swift_task_enterThreadLocalContext m Head taskCtx
      = Ok (m1, Head1, mkTaskCtx Head 0) /\
    swift_beginAccess fuel ra (mkRuntime m1 Head1 false) pointer buffer flags pc
      = Ok rt2 /\
    swift_task_exitThreadLocalContext fuel (buffers rt2) (tlsHead rt2)
      (mkTaskCtx Head 0) = Ok (m3, Head, t3) /\
    is_span m3 t3 (buffer :: lt) /\
    is_list m3 Head ls.
Proof.
  intros Hls Hspan Hdisj Hv HvT Hptr Htr Hold Hfresh Hnc Hfuel.
  destruct (push_spec m Head ls taskCtx lt Hls Hspan Hdisj Hv)
    as (m1 & Head1 & Hpush & Hl1 & Hls1 & Hframe1 & Hsame).
  assert (Hv1 : valid_ptr Head1).
  { destruct Hspan as [Hlt _]. destruct lt as [|tb lt'].
    - simpl in Hl1. now rewrite (is_list_head_eq _ _ _ _ _ Hl1 Hls1).
    - apply is_seg_head in Hlt as [Htb _]. apply is_seg_head in Hl1 as [-> _].
      now rewrite <- Htb. }
  assert (Hnl : buffer ∉ lt) by (intros Hin; apply Hfresh, elem_of_app; now left).
  assert (Hnr : buffer ∉ ls) by (intros Hin; apply Hfresh, elem_of_app; now right).
  assert (Hold1 : load m1 buffer = Ok old).
  { unfold load in *. now rewrite (Hframe1 buffer Hnl). }
  assert (Hnc1 : forall a c, a ∈ lt ++ ls -> load m1 a = Ok c ->
                   ~ conflicts pointer (getAccessAction flags) c).
  { intros a c1 Hin Hc1 Hconf.
    assert (Hc0 : exists c0, load m a = Ok c0).
    { apply elem_of_app in Hin as [Hin|Hin].
      - destruct Hspan as [Hlt _]. eapply is_seg_elem_load; eassumption.
      - eapply is_seg_elem_load; eassumption. }
    destruct Hc0 as (c0 & Hc0). destruct (Hsame a c0 Hc0) as (c' & Hc' & Hs).
    rewrite Hc1 in Hc'. inversion Hc'; subst c'.
    apply (Hnc a c0 Hin Hc0). destruct Hs as (Hp & _ & Hact).
    destruct Hconf as [H1 H2]. unfold conflicts. rewrite <- Hp, <- Hact. auto. }
  destruct (beginAccess_tracked_spec fuel ra (mkRuntime m1 Head1 false) (lt ++ ls)
              pointer buffer flags pc old) as (Hbeg & _ & Hl2);
    try assumption; try reflexivity.
  { simpl. lia. }
  simpl in Hbeg, Hl2.
  set (m2 := <[buffer := Access_initialize (if pc =? 0 then ra else pc) pointer
                           Head1 (getAccessAction flags)]> m1) in *.
  assert (Hls2 : is_list m2 Head ls) by (apply is_seg_insert_notin; assumption).
  pose proof (split_at_pivot m2 buffer (buffer :: lt) ls Head Hl2 Hls2) as Hseg2.
  destruct (pop_spec fuel m2 buffer (buffer :: lt) ls Head Hseg2 Hls2)
    as (m3 & t3 & Hpop & Hspan3 & Hls3 & _).
  { simpl in *. lia. }
  exists m1, Head1, (mkRuntime m2 buffer false), m3, t3.
  split; [exact Hpush|]. split; [exact Hbeg|].
  split; [exact Hpop | split; assumption].
Qed.

End RunningTask.

(* ===================================================================== *)
(** ** The further properties on the example heap *)
(* ===================================================================== *)

Ltac solve_list := unfold is_list; simpl; walk_list.
Ltac solve_notin :=
  let H := fresh in intros H; apply list_elem_of_In in H; simpl in H; lia.
Ltac solve_valid :=
  split; [vm_compute; split; [discriminate | reflexivity] | reflexivity].
Ltac nodup_Z :=
  simpl; repeat (apply NoDup_cons; split; [solve_notin|]); apply NoDup_nil_2.

Lemma heap_thread_list : is_list ex_heap 32 [32; 16].
Proof. solve_list. Qed.

Lemma heap_task_span : is_span ex_heap ex_task [64; 80].
Proof. split; [solve_list | reflexivity]. Qed.

Lemma heap_other_thread_list : is_list ex_heap 96 [96].
Proof. solve_list. Qed.

Lemma running_task_part : is_seg ex_running 64 [64; 80] 32.
Proof. simpl. walk_list. Qed.

Lemma running_sync_part : is_list ex_running 32 [32; 16].
Proof. solve_list. Qed.

Lemma heap_disjoint : forall a : Z, a ∈ [64; 80] -> a ∉ [32; 16].
Proof. intros a Ha. apply list_elem_of_In in Ha. simpl in Ha. solve_notin. Qed.

Lemma heap_no_conflict_0x5000 flags :
  forall a c, a ∈ [64; 80] ++ [32; 16] -> load ex_heap a = Ok c ->
    ~ conflicts 20480 (getAccessAction flags) c.
Proof.
  intros a c Ha Hc [Hp _]. apply list_elem_of_In in Ha. simpl in Ha.
  destruct Ha as [<-|[<-|[<-|[<-|[]]]]]; vm_compute in Hc; inversion Hc; subst c;
    discriminate.
Qed.

Lemma heap_no_conflict_0x5000_thread flags :
  forall a c, a ∈ [32; 16] -> load ex_heap a = Ok c ->
    ~ conflicts 20480 (getAccessAction flags) c.
Proof.
  intros a c Ha. apply (heap_no_conflict_0x5000 flags). simpl. now do 2 right.
Qed.

Lemma X2_setNext_fields_witness :
  Access_getAccessAction (Access_setNext ex_R2 64) = Access_getAccessAction ex_R2.
Proof.
  destruct (X2_setNext_fields ex_R2 64) as (_ & _ & _ & H). apply H. reflexivity.
Defined.

Lemma X3_initialize_reads_back_witness :
  let a := Access_initialize 258 8192 32 1 in
  Pointer a = 8192 /\ PC a = 258 /\
  Access_getNext a = 32 /\ Access_getAccessAction a = 1.
Proof.
  apply (X3_initialize_reads_back 258 8192 32 1); [solve_valid | reflexivity].
Defined.

Lemma X4_getNext_action_partition_witness :
  Z.lor (Access_getNext ex_R2) (Access_getAccessAction ex_R2) = 17.
Proof.
  destruct (X4_getNext_action_partition ex_R2) as (_ & _ & H). apply H.
  vm_compute. split; [discriminate | reflexivity].
Defined.

Lemma X5_getTail_last_witness : AccessSet_getTail 2 ex_heap 32 = Ok 16.
Proof.
  apply (X5_getTail_last 2 ex_heap 32 [32; 16]); [exact heap_thread_list | simpl; lia].
Defined.

Lemma X6_findParentAccess_null_iff_witness :
  AccessSet_findParentAccess 2 ex_heap 32 48 = Ok 0 <->
  48 = 32 \/ 48 ∉ [32; 16].
Proof.
  apply (X6_findParentAccess_null_iff 2 ex_heap 32 32 [16] 48);
    [exact heap_thread_list | simpl; lia].
Defined.

Lemma X7_remove_absent_witness :
  AccessSet_remove 2 ex_heap 32 48 = Err Unreachable.
Proof.
  apply (X7_remove_absent 2 ex_heap 32 [32; 16] 48);
    [exact heap_thread_list | solve_notin | simpl; lia].
Defined.

Lemma X8_double_endAccess_witness :
  exists rt',
    swift_endAccess 2 (mkRuntime ex_heap 32 false) 16 = Ok rt' /\
    swift_endAccess 2 rt' 16 = Err Unreachable.
Proof.
  apply (X8_double_endAccess 2 (mkRuntime ex_heap 32 false) [32] 16 [] ex_R1).
  - exact heap_thread_list.
  - simpl. lia.
  - reflexivity.
  - simpl. lia.
Defined.

Lemma X9_beginAccess_tracked_witness :
  exists rt' r,
    swift_beginAccess 2 4660 (mkRuntime ex_heap 32 false) 20480 48 33 0 = Ok rt' /\
    tlsHead rt' = 48 /\
    is_list (buffers rt') (tlsHead rt') [48; 32; 16] /\
    load (buffers rt') 48 = Ok r /\
    Pointer r = 20480 /\
    PC r = 4660 /\
    Access_getAccessAction r = getAccessAction 33 /\
    (forall p, p <> 48 -> buffers rt' !! p = ex_heap !! p).
Proof.
  apply (X9_beginAccess_tracked 2 4660 (mkRuntime ex_heap 32 false) [32; 16]
           20480 48 33 0 ex_scratch).
  - exact heap_thread_list.
  - simpl. lia.
  - solve_valid.
  - reflexivity.
  - lia.
  - reflexivity.
  - reflexivity.
  - solve_notin.
  - exact (heap_no_conflict_0x5000_thread 33).
Defined.

Lemma X10_begin_end_round_trip_witness :
  exists rt1 rt2,
    swift_beginAccess 2 4660 (mkRuntime ex_heap 32 false) 20480 48 33 0 = Ok rt1 /\
    swift_endAccess 2 rt1 48 = Ok rt2 /\
    tlsHead rt2 = 32 /\
    is_list (buffers rt2) (tlsHead rt2) [32; 16] /\
    (forall p, p <> 48 -> buffers rt2 !! p = ex_heap !! p).
Proof.
  apply (X10_begin_end_round_trip 2 4660 (mkRuntime ex_heap 32 false) [32; 16]
           20480 48 33 0 ex_scratch).
  - exact heap_thread_list.
  - simpl. lia.
  - solve_valid.
  - reflexivity.
  - lia.
  - reflexivity.
  - reflexivity.
  - solve_notin.
  - exact (heap_no_conflict_0x5000_thread 33).
Defined.

Lemma X11_begin_all_end_all_witness :
  exists rt1 rt2,
    begin_all 4 4660 (mkRuntime ex_heap 32 false) ex_calls = Ok rt1 /\
    is_list (buffers rt1) (tlsHead rt1) [112; 48; 32; 16] /\
    end_all 4 rt1 [48; 112] = Ok rt2 /\
    tlsHead rt2 = 32 /\
    is_list (buffers rt2) (tlsHead rt2) [32; 16].
Proof.
  apply (X11_begin_all_end_all 4 4660 (mkRuntime ex_heap 32 false) [32; 16]
           ex_calls [48; 112]).
  - exact heap_thread_list.
  - solve_valid.
  - reflexivity.
  - nodup_Z.
  - nodup_Z.
  - intros c Hc. apply list_elem_of_In in Hc. simpl in Hc.
    destruct Hc as [<-|[<-|[]]]; simpl;
      (split; [solve_notin|]); (split; [eexists; vm_compute; reflexivity|]);
      (split; [solve_valid|]); (split; [lia | reflexivity]).
  - intros c a Hc Ha. apply list_elem_of_In in Hc, Ha. simpl in Hc, Ha.
    destruct Hc as [<-|[<-|[]]], Ha as [<-|[<-|[]]]; vm_compute; discriminate.
  - reflexivity.
  - simpl. lia.
Defined.

Lemma X12_push_installs_span_witness :
  exists m' Head',
    swift_task_enterThreadLocalContext ex_heap 32 ex_task
      = Ok (m', Head', mkTaskCtx 32 0) /\
    Head' = 64 /\
    is_list m' Head' [64; 80; 32; 16] /\
    is_list m' 32 [32; 16] /\
    (forall p, p ∉ [64; 80] -> m' !! p = ex_heap !! p) /\
    (forall a c, load ex_heap a = Ok c ->
       exists c', load m' a = Ok c' /\ same_access c c').
Proof.
  apply (X12_push_installs_span ex_heap 32 [32; 16] ex_task [64; 80]).
  - exact heap_thread_list.
  - exact heap_task_span.
  - exact heap_disjoint.
  - solve_valid.
Defined.

Lemma X13_pop_extracts_span_witness :
  exists m' t',
    swift_task_exitThreadLocalContext 4 ex_running 64 (mkTaskCtx 32 0)
      = Ok (m', 32, t') /\
    state0 t' = 64 /\ state1 t' = 80 /\
    is_span m' t' [64; 80] /\
    is_list m' 32 [32; 16] /\
    (forall p, p ∉ [64; 80] -> m' !! p = ex_running !! p) /\
    (forall a c, load ex_running a = Ok c ->
       exists c', load m' a = Ok c' /\ same_access c c').
Proof.
  apply (X13_pop_extracts_span 4 ex_running 64 [64; 80] [32; 16] 32).
  - exact running_task_part.
  - exact running_sync_part.
  - simpl. lia.
Defined.

Lemma X14_pop_push_restores_witness :
  exists m1 Head1 taskCtx1,
    swift_task_exitThreadLocalContext 4 ex_running 64 (mkTaskCtx 32 0)
      = Ok (m1, Head1, taskCtx1) /\
    swift_task_enterThreadLocalContext m1 Head1 taskCtx1
      = Ok (ex_running, 64, mkTaskCtx 32 0).
Proof.
  apply (X14_pop_push_restores 4 ex_running 64 [64; 80] [32; 16] 32).
  - exact running_task_part.
  - exact running_sync_part.
  - solve_valid.
  - intros e c He Hc. inversion He; subst e. vm_compute in Hc. inversion Hc.
    vm_compute. split; [discriminate | reflexivity].
  - simpl. lia.
Defined.

Lemma X15_pop_then_push_elsewhere_witness :
  exists m1 t1 m2 Head2,
    swift_task_exitThreadLocalContext 4 ex_running 64 (mkTaskCtx 32 0)
      = Ok (m1, 32, t1) /\
    swift_task_enterThreadLocalContext m1 96 t1
      = Ok (m2, Head2, mkTaskCtx 96 0) /\
    is_list m2 Head2 [64; 80; 96] /\
    is_list m2 96 [96] /\
    is_list m2 32 [32; 16].
Proof.
  apply (X15_pop_then_push_elsewhere 4 ex_running 64 [64; 80] [32; 16] 32 96 [96]).
  - exact running_task_part.
  - exact running_sync_part.
  - solve_list.
  - intros a Ha. apply list_elem_of_In in Ha. simpl in Ha. solve_notin.
  - solve_valid.
  - simpl. lia.
Defined.

Lemma X16_pop_lost_pivot_witness :
  swift_task_exitThreadLocalContext 2 ex_heap 32 (mkTaskCtx 64 0) = Err BadPointer.
Proof.
  apply (X16_pop_lost_pivot 2 ex_heap 32 [32; 16] 64 0).
  - exact heap_thread_list.
  - lia.
  - solve_notin.
  - simpl. lia.
Defined.

Lemma X17_conflicts_across_push_pop_witness :
  (exists m1 Head1 t1,
     swift_task_enterThreadLocalContext ex_heap 32 ex_task = Ok (m1, Head1, t1) /\
     AccessSet_insert 4 m1 Head1 48 9 4096 33 = Err Conflict /\
     AccessSet_insert 4 m1 Head1 48 9 12288 32 = Err Conflict) /\
  AccessSet_insert 4 ex_heap 32 48 9 12288 32 <> Err Conflict.
Proof.
  destruct (X17_conflicts_across_push_pop 4 ex_heap 32 [32; 16] ex_task [64; 80]
              48 9 4096 33) as [(m1 & Head1 & t1 & Hpush & Hiff) _].
  { exact heap_thread_list. }
  { exact heap_task_span. }
  { exact heap_disjoint. }
  { solve_valid. }
  { simpl. lia. }
  destruct (X17_conflicts_across_push_pop 4 ex_heap 32 [32; 16] ex_task [64; 80]
              48 9 12288 32) as [(m1' & Head1' & t1' & Hpush' & Hiff') Hsusp].
  { exact heap_thread_list. }
  { exact heap_task_span. }
  { exact heap_disjoint. }
  { solve_valid. }
  { simpl. lia. }
  rewrite Hpush in Hpush'. inversion Hpush'; subst m1' Head1' t1'.
  split.
  - exists m1, Head1, t1. split; [exact Hpush|]. split.
    + apply Hiff. exists 16, ex_R1. split; [simpl; now do 3 right; left|].
      split; [reflexivity|]. split; [reflexivity|]. left. reflexivity.
    + apply Hiff'. exists 64, ex_T1. split; [left|].
      split; [reflexivity|]. split; [reflexivity|]. right. reflexivity.
  - intros Hc. apply Hsusp in Hc as (a & c & Ha & Hc & Hp & _).
    apply list_elem_of_In in Ha. simpl in Ha.
    destruct Ha as [<-|[<-|[]]]; vm_compute in Hc; inversion Hc; subst c;
      discriminate.
Defined.

Lemma X18_conflict_report_witness :
  exists l1 a l2 c,
    [32; 16] = l1 ++ a :: l2 /\ load ex_heap a = Ok c /\
    conflicts 4096 (getAccessAction 1) c /\
    (forall b cb, b ∈ l1 -> load ex_heap b = Ok cb ->
                  ~ conflicts 4096 (getAccessAction 1) cb) /\
    let r := mkConflictReport (Access_getAccessAction c) (PC c) 1 9 4096 in
    insert_scan_report 2 ex_heap 32 9 4096 1 = Ok (Some r) /\
    insert_scan 2 ex_heap 32 4096 (getAccessAction 1) = Err Conflict /\
    (reported_old_name r = "modification" \/ reported_new_name r = "modification") /\
    (reported_old_name r = "read" \/ reported_old_name r = "modification") /\
    (reported_new_name r = "read" \/ reported_new_name r = "modification").
Proof.
  apply (X18_conflict_report 2 ex_heap 32 [32; 16] 9 4096 1).
  - exact heap_thread_list.
  - simpl. lia.
  - exists 16, ex_R1. split; [now right; left|].
    split; [reflexivity|]. split; [reflexivity|]. left. reflexivity.
Defined.

Lemma X19_forEach_in_list_order_witness :
  AccessSet_forEach 2 ex_heap 32 (fun a s => Ok (a + s)) 0
    = Ok (fold_left (fun s a => a + s) [32; 16] 0) /\
  AccessSet_forEach 2 ex_heap 32 (fun a visited => Ok (visited ++ [a])) []
    = Ok [32; 16].
Proof.
  apply (X19_forEach_in_list_order (fun a s => a + s) (fun a s => Ok (a + s))
           2 ex_heap 32 [32; 16] 0).
  - exact heap_thread_list.
  - simpl. lia.
  - reflexivity.
Defined.

Lemma X20_dumpTrackedAccesses_witness :
  exists lines,
    swift_dumpTrackedAccesses 2 ex_heap 32 [] = Ok ([] ++ lines) /\
    Forall2 (fun a line => exists c, load ex_heap a = Ok c /\
               line = AccessLine (Pointer c) (PC c)
                        (getAccessName (Access_getAccessAction c)))
            [32; 16] lines.
Proof.
  apply (X20_dumpTrackedAccesses 2 ex_heap 32 [32; 16] []).
  - exact heap_thread_list.
  - simpl. lia.
Defined.

Lemma X21_replacement_flag_one_shot_witness :
  let ctx := mkTLSContext 32 false in
  let pending := mkTLSContext 32 true in
  swift_getOrigOfReplaceable ex_cells ctx 200 = Ok (pending, 1000) /\
  swift_getFunctionReplacement false (fun f => f) ex_cells pending 208 1000
    = Ok (ctx, 0) /\
  swift_getFunctionReplacement false (fun f => f) ex_cells ctx 208 1000
    = Ok (ctx, 2000).
Proof.
  destruct (X21_replacement_flag_one_shot false (fun f => f) ex_cells
              (mkTLSContext 32 false) 200 208 1000 1000 2000)
    as (H1 & H2 & _); [reflexivity | reflexivity |].
  destruct H2 as (H2 & H3); [simpl; lia|].
  intros ctx pending. split; [exact H1|]. split; [exact H2 | exact H3].
Defined.

Lemma X22_push_end_pop_witness :
  exists m1 Head1 rt2 m3 t3,
    swift_task_enterThreadLocalContext ex_heap 32 ex_task
      = Ok (m1, Head1, mkTaskCtx 32 0) /\
    swift_endAccess 4 (mkRuntime m1 Head1 false) 80 = Ok rt2 /\
    swift_task_exitThreadLocalContext 4 (buffers rt2) (tlsHead rt2)
      (mkTaskCtx 32 0) = Ok (m3, 32, t3) /\
    is_span m3 t3 [64] /\
    is_list m3 32 [32; 16].
Proof.
  apply (X22_push_end_pop 4 ex_heap 32 [32; 16] ex_task [64] 80 [] ex_T2 false).
  - exact heap_thread_list.
  - exact heap_task_span.
  - exact heap_disjoint.
  - solve_valid.
  - reflexivity.
  - simpl. lia.
  - simpl. lia.
Defined.

Lemma X23_push_begin_pop_witness :
  exists m1 Head1 rt2 m3 t3,
    swift_task_enterThreadLocalContext ex_heap 32 ex_task
      = Ok (m1, Head1, mkTaskCtx 32 0) /\
    swift_beginAccess 5 4660 (mkRuntime m1 Head1 false) 20480 48 33 0 = Ok rt2 /\
    swift_task_exitThreadLocalContext 5 (buffers rt2) (tlsHead rt2)
      (mkTaskCtx 32 0) = Ok (m3, 32, t3) /\
    is_span m3 t3 [48; 64; 80] /\
    is_list m3 32 [32; 16].
Proof.
  apply (X23_push_begin_pop 5 4660 ex_heap 32 [32; 16] ex_task [64; 80]
           20480 48 33 0 ex_scratch).
  - exact heap_thread_list.
  - exact heap_task_span.
  - exact heap_disjoint.
  - solve_valid.
  - solve_valid.
  - lia.
  - reflexivity.
  - reflexivity.
  - solve_notin.
  - exact (heap_no_conflict_0x5000 33).
  - simpl. lia.
Defined.

(* ===================================================================== *)
(** ** Further properties: a buffer handed to begin_access twice *)
(* ===================================================================== *)

Section Reentry.
Context {abi : ExclusivityABI} {laws : ExclusivityABILaws abi}.

Lemma scan_self_loop m access r pointer' action' :
  load m access = Ok r -> Access_getNext r = access ->
  Pointer r <> pointer' ->
  forall fuel, insert_scan fuel m access pointer' action' = Err OutOfFuel.
Proof.
  intros Hr Hnext Hp. induction fuel as [|fuel IH]; simpl;
    rewrite (load_nonnull _ _ _ Hr); [reflexivity|].
  rewrite Hr. simpl.
  destruct (Z.eqb_spec (Pointer r) pointer') as [|_]; [contradiction|]. simpl.
  rewrite Hnext. exact IH.
Qed.

(** X24: insert does not notice that the buffer it is given is already
    the head of the set.  When the scan finds no conflict, the buffer
    is re-initialised with itself as its next record: the list has
    become a cycle, and from then on the scan for any other storage
    pointer never reaches the end of the list, whatever bound the walk
    is given. *)
Theorem X24_insert_same_buffer_twice fuel m l access pc pointer flags :
  is_list m access (access :: l) -> (length (access :: l) <= fuel)%nat ->
  valid_ptr access ->
  isTracking flags = true ->
  (forall a c, a ∈ access :: l -> load m a = Ok c ->
               ~ conflicts pointer (getAccessAction flags) c) ->
  exists m' r,
    AccessSet_insert fuel m access access pc pointer flags = Ok (m', access, true) /\
    load m' access = Ok r /\
    Access_getNext r = access /\
    forall fuel' pointer' action',
      pointer' <> pointer ->
      insert_scan fuel' m' access pointer' action' = Err OutOfFuel.
Proof.
  intros Hl Hfuel Hv Htr Hnc.
  pose proof Hl as (_ & old & Hold & _).
  set (r := Access_initialize pc pointer access (getAccessAction flags)).
  exists (<[access := r]> m), r.
  assert (Ha0 : access <> 0) by now apply load_Ok in Hold.
  assert (Hr : load (<[access := r]> m) access = Ok r) by now apply load_insert_eq.
  assert (Hnext : Access_getNext r = access)
    by (apply getNext_initialize; [exact Hv | apply action_in_mask]).
  split; [|split; [exact Hr|split; [exact Hnext|]]].
  - unfold AccessSet_insert.
    destruct (insert_scan_spec fuel m access (access :: l) pointer
                (getAccessAction flags) Hl Hfuel)
      as [(He & a & c & Hin & Hc & Hp & Hn)|(He & Hall)].
    + exfalso. apply (Hnc a c Hin Hc). split; [exact Hp|]. now apply not_both_reads.
    + rewrite He. simpl. rewrite Htr. simpl.
      rewrite (store_Ok _ _ _ _ Hold). reflexivity.
  - intros fuel' pointer' action' Hne.
    apply (scan_self_loop _ _ r); [exact Hr | exact Hnext |].
    simpl. congruence.
Qed.

End Reentry.

Lemma X24_insert_same_buffer_twice_witness :
  exists m' r,
    AccessSet_insert 2 ex_heap 32 32 9 20480 33 = Ok (m', 32, true) /\
    load m' 32 = Ok r /\
    Access_getNext r = 32 /\
    forall fuel' pointer' action',
      pointer' <> 20480 ->
      insert_scan fuel' m' 32 pointer' action' = Err OutOfFuel.
Proof.
  apply (X24_insert_same_buffer_twice 2 ex_heap [16] 32 9 20480 33).
  - exact heap_thread_list.
  - simpl. lia.
  - solve_valid.
  - reflexivity.
  - exact (heap_no_conflict_0x5000_thread 33).
Defined.
